(** * Macropad_Hotkeys host bridge: a shallow embedding of
      [host/macropad_appname.py] and the properties of its session and
      reconnection protocol.

    The script talks to the operating system through a handful of calls
    ([select], [os.read], [os.write], [os.close], [os.system], [os.open],
    [fcntl], [glob], [subprocess], [time.sleep], [print]).  Every such call is
    an [event] of the run; what the operating system answers (a value, or an
    exception raised inside the call, the external interrupt included) is
    supplied by an explicit environment script, so that each function of the
    source becomes a total, executable function from an environment script to
    a trace, a final value of the global [saved_input_volume], and a result.
    The two [while True] loops consume one entry of the script per iteration;
    a run whose script is used up is a prefix of a longer run and ends in
    [Running]. *)

From Stdlib Require Import List ZArith NArith Lia Bool Ascii String DecimalZ.
From Stdlib.Strings Require Import Byte.
Import ListNotations.

Set Implicit Arguments.

Local Open Scope N_scope.
Local Open Scope list_scope.

(* ================================================================== *)
(** * Python text and bytes                                            *)
(* ================================================================== *)

(** A Python [str] is a sequence of code points, a [bytes] object a sequence
    of octets. *)
Definition str := list N.
Definition bytes := list byte.

(** String literals of the source, as code points. *)
Definition lit (s : string) : str := map N_of_ascii (list_ascii_of_string s).

Definition LF : N := 0x0A.
Definition LF_byte : byte := x0a.

Fixpoint str_eqb (a b : str) : bool :=
  match a, b with
  | [], [] => true
  | x :: a', y :: b' => N.eqb x y && str_eqb a' b'
  | _, _ => false
  end.

(** Truth value of a [str] in an [if]: non-empty. *)
Definition truthy (s : str) : bool :=
  match s with [] => false | _ :: _ => true end.

(** [str.isspace] on one code point: the characters [str.strip()] removes. *)
Definition isspace (c : N) : bool :=
  ((0x09 <=? c) && (c <=? 0x0D)) || ((0x1C <=? c) && (c <=? 0x20))
  || (c =? 0x85) || (c =? 0xA0) || (c =? 0x1680)
  || ((0x2000 <=? c) && (c <=? 0x200A))
  || (c =? 0x2028) || (c =? 0x2029) || (c =? 0x202F) || (c =? 0x205F)
  || (c =? 0x3000).

Fixpoint lstrip (s : str) : str :=
  match s with
  | [] => []
  | c :: r => if isspace c then lstrip r else s
  end.

Definition rstrip (s : str) : str := rev (lstrip (rev s)).

(** [s.strip()] *)
Definition strip (s : str) : str := lstrip (rstrip s).

(** ** UTF-8 *)

Definition byte_of (n : N) : byte :=
  match Byte.of_N (N.land n 0xFF) with Some b => b | None => x00 end.

(** [str.encode()] of one code point.  The strings encoded by the script come
    out of a strict decoder, so they hold no surrogate. *)
Definition encode_cp (c : N) : bytes :=
  if c <? 0x80 then [byte_of c]
  else if c <? 0x800 then
    [byte_of (N.lor 0xC0 (N.shiftr c 6)); byte_of (N.lor 0x80 (N.land c 0x3F))]
  else if c <? 0x10000 then
    [byte_of (N.lor 0xE0 (N.shiftr c 12));
     byte_of (N.lor 0x80 (N.land (N.shiftr c 6) 0x3F));
     byte_of (N.lor 0x80 (N.land c 0x3F))]
  else
    [byte_of (N.lor 0xF0 (N.shiftr c 18));
     byte_of (N.lor 0x80 (N.land (N.shiftr c 12) 0x3F));
     byte_of (N.lor 0x80 (N.land (N.shiftr c 6) 0x3F));
     byte_of (N.lor 0x80 (N.land c 0x3F))].

Definition encode (s : str) : bytes := flat_map encode_cp s.

Definition REPLACEMENT : N := 0xFFFD.

Definition is_cont (b : N) : bool := (0x80 <=? b) && (b <=? 0xBF).

Definition low6 (b : N) : N := N.land b 0x3F.

(** Second byte of a three-byte form: a continuation byte, not an overlong
    form after E0 and not a surrogate after ED. *)
Definition second_of_3 (c1 c2 : N) : bool :=
  is_cont c2 && negb ((c1 =? 0xE0) && (c2 <? 0xA0))
             && negb ((c1 =? 0xED) && (0xA0 <=? c2)).

(** Second byte of a four-byte form: a continuation byte, not an overlong
    form after F0 and not beyond U+10FFFF after F4. *)
Definition second_of_4 (c1 c2 : N) : bool :=
  is_cont c2 && negb ((c1 =? 0xF0) && (c2 <? 0x90))
             && negb ((c1 =? 0xF4) && (0x90 <=? c2)).

(** [b.decode("utf-8", errors="replace")]: every maximal ill-formed run (an
    invalid start byte, a lead byte with the valid continuation bytes that
    follow it, or a truncated form at the end) becomes one U+FFFD and decoding
    resumes right after it. *)
Fixpoint decode (bs : bytes) : str :=
  match bs with
  | [] => []
  | b1 :: r1 =>
    let c1 := Byte.to_N b1 in
    if c1 <? 0x80 then c1 :: decode r1
    else if c1 <? 0xC2 then REPLACEMENT :: decode r1
    else if c1 <? 0xE0 then
      match r1 with
      | [] => [REPLACEMENT]
      | b2 :: r2 =>
        let c2 := Byte.to_N b2 in
        if is_cont c2
        then N.lor (N.shiftl (N.land c1 0x1F) 6) (low6 c2) :: decode r2
        else REPLACEMENT :: decode r1
      end
    else if c1 <? 0xF0 then
      match r1 with
      | [] => [REPLACEMENT]
      | b2 :: r2 =>
        let c2 := Byte.to_N b2 in
        if second_of_3 c1 c2 then
          match r2 with
          | [] => [REPLACEMENT]
          | b3 :: r3 =>
            let c3 := Byte.to_N b3 in
            if is_cont c3
            then N.lor (N.shiftl (N.land c1 0x0F) 12)
                   (N.lor (N.shiftl (low6 c2) 6) (low6 c3)) :: decode r3
            else REPLACEMENT :: decode r2
          end
        else REPLACEMENT :: decode r1
      end
    else if c1 <? 0xF5 then
      match r1 with
      | [] => [REPLACEMENT]
      | b2 :: r2 =>
        let c2 := Byte.to_N b2 in
        if second_of_4 c1 c2 then
          match r2 with
          | [] => [REPLACEMENT]
          | b3 :: r3 =>
            let c3 := Byte.to_N b3 in
            if is_cont c3 then
              match r3 with
              | [] => [REPLACEMENT]
              | b4 :: r4 =>
                let c4 := Byte.to_N b4 in
                if is_cont c4
                then N.lor (N.shiftl (N.land c1 0x07) 18)
                       (N.lor (N.shiftl (low6 c2) 12)
                          (N.lor (N.shiftl (low6 c3) 6) (low6 c4)))
                     :: decode r4
                else REPLACEMENT :: decode r3
              end
            else REPLACEMENT :: decode r2
          end
        else REPLACEMENT :: decode r1
      end
    else REPLACEMENT :: decode r1
  end.

(** ** Decimal integers *)

Fixpoint digits (d : Decimal.uint) : str :=
  match d with
  | Decimal.Nil => []
  | Decimal.D0 d => 0x30 :: digits d
  | Decimal.D1 d => 0x31 :: digits d
  | Decimal.D2 d => 0x32 :: digits d
  | Decimal.D3 d => 0x33 :: digits d
  | Decimal.D4 d => 0x34 :: digits d
  | Decimal.D5 d => 0x35 :: digits d
  | Decimal.D6 d => 0x36 :: digits d
  | Decimal.D7 d => 0x37 :: digits d
  | Decimal.D8 d => 0x38 :: digits d
  | Decimal.D9 d => 0x39 :: digits d
  end.

(** [str(v)] and the [{v}] of an f-string, for an [int]. *)
Definition py_str (v : Z) : str :=
  match Z.to_int v with
  | Decimal.Pos d => digits d
  | Decimal.Neg d => 0x2D :: digits d
  end.

Definition digit_of (c : N) : option (Decimal.uint -> Decimal.uint) :=
  if c =? 0x30 then Some Decimal.D0 else if c =? 0x31 then Some Decimal.D1
  else if c =? 0x32 then Some Decimal.D2 else if c =? 0x33 then Some Decimal.D3
  else if c =? 0x34 then Some Decimal.D4 else if c =? 0x35 then Some Decimal.D5
  else if c =? 0x36 then Some Decimal.D6 else if c =? 0x37 then Some Decimal.D7
  else if c =? 0x38 then Some Decimal.D8 else if c =? 0x39 then Some Decimal.D9
  else None.

(** The digit string of an [int()] literal: at least one digit, single
    underscores allowed between digits only.  [after_digit] tells whether the
    previous character was a digit. *)
Fixpoint parse_digits (after_digit : bool) (s : str) : option Decimal.uint :=
  match s with
  | [] => if after_digit then Some Decimal.Nil else None
  | c :: r =>
    if c =? 0x5F then
      if after_digit then parse_digits false r else None
    else
      match digit_of c with
      | Some D => option_map D (parse_digits true r)
      | None => None
      end
  end.

(** [int(s)] for a [str]: surrounding whitespace is ignored, then an optional
    sign and a decimal digit string; [None] stands for [ValueError].  Only the
    ASCII digits are recognised (CPython also accepts the other Unicode
    decimal digits, which [osascript] never prints), and the interpreter's
    configurable cap on the length of a digit string is left out. *)
Definition py_int (s : str) : option Z :=
  match strip s with
  | [] => None
  | c :: r =>
    if c =? 0x2D then
      option_map (fun d => Z.of_int (Decimal.Neg d)) (parse_digits false r)
    else if c =? 0x2B then
      option_map (fun d => Z.of_int (Decimal.Pos d)) (parse_digits false r)
    else
      option_map (fun d => Z.of_int (Decimal.Pos d)) (parse_digits false (c :: r))
  end.

(* ================================================================== *)
(** * Operating-system calls, exceptions and runs                      *)
(* ================================================================== *)

(** The exception classes the script meets: [KeyboardInterrupt] (the external
    interrupt), [OSError] with its subclasses, and [ValueError]. *)
Inductive exn : Type := KeyboardInterrupt | OSError | ValueError.

Definition exn_eqb (a b : exn) : bool :=
  match a, b with
  | KeyboardInterrupt, KeyboardInterrupt => true
  | OSError, OSError => true
  | ValueError, ValueError => true
  | _, _ => false
  end.

(** What the operating system answers to one call: a value, or an exception
    raised inside the call. *)
Inductive outcome (A : Type) : Type :=
| Ret (a : A)
| Exc (e : exn).
Arguments Exc {A} e.

(** The three AppleScript programs handed to [osascript]. *)
Inductive osa_script : Type :=
| MuteAndReport                 (* toggle_mic, muting branch *)
| RestoreVolume (restore : Z)   (* toggle_mic, unmuting branch *)
| FrontmostApp.                 (* run_session *)

Definition script_text (s : osa_script) : str :=
  match s with
  | MuteAndReport =>
      lit "set vol to input volume of (get volume settings)" ++ [LF]
      ++ lit "set volume input volume 0" ++ [LF] ++ lit "return vol"
  | RestoreVolume restore => lit "set volume input volume " ++ py_str restore
  | FrontmostApp =>
      lit "tell application " ++ [0x22]
      ++ lit "System Events" ++ [0x22] ++ lit " to get name of "
      ++ lit "first application process whose frontmost is true"
  end.

(** One constructor per [print] of the script. *)
Inductive log_msg : Type :=
| MsgMuted (was : Z)            (* Mic: MUTED (was ..) *)
| MsgUnmuted (restore : Z)      (* Mic: UNMUTED (restored to ..) *)
| MsgUnknown (cmd : str)        (* Unknown command: .. *)
| MsgOpenFailed (port : str)    (* Failed to open ..: .. *)
| MsgEof                        (* MacroPad disconnected (EOF). *)
| MsgReadError                  (* MacroPad disconnected (error). *)
| MsgWriteError                 (* MacroPad disconnected (write error). *)
| MsgSent (app : str)           (* Sent: .. *)
| MsgNoMacroPad                 (* No MacroPad found. Retrying in 5s... *)
| MsgConnecting (port : str)    (* Connecting to ..... *)
| MsgConnected (port : str)     (* Connected to .. *)
| MsgStopped                    (* Stopped. *)
| MsgReconnecting.              (* Reconnecting in 5s... *)

(** The calls a run performs, each with what it was given and what came back.
    Timeouts of [select] are in milliseconds, sleeps in seconds. *)
Inductive event : Type :=
| EvSelect (fd : Z) (timeout_ms : Z) (r : outcome bool)
| EvRead (fd : Z) (n : Z) (r : outcome bytes)
| EvWrite (fd : Z) (data : bytes) (r : outcome unit)
| EvClose (fd : Z) (r : outcome unit)
| EvSystem (cmd : str) (r : outcome Z)
| EvOpen (path : str) (flags : Z) (r : outcome Z)
| EvGetfl (fd : Z) (r : outcome Z)
| EvSetfl (fd : Z) (flags : Z) (r : outcome unit)
| EvGlob (pattern : str) (found : list str)
| EvRun (script : osa_script) (r : outcome str)     (* subprocess.run: waits *)
| EvPopen (script : osa_script) (r : outcome unit)  (* subprocess.Popen: does not *)
| EvSleep (secs : Z) (r : outcome unit)
| EvPrint (msg : log_msg)
| EvFindPort (port : option str).   (* not a system call: find_port() returned *)

(** How a piece of the program ends: with a value, with an exception in
    flight, or not yet ([Running]: the environment script is used up while the
    program is still executing, so what was computed is a prefix of the run). *)
Inductive result (A : Type) : Type :=
| Done (a : A)
| Raised (e : exn)
| Running.
Arguments Raised {A} e.
Arguments Running {A}.

(** A run: the calls made, the module global [saved_input_volume] afterwards,
    and the result. *)
Record run (A : Type) : Type := Run {
  trace : list event;
  saved_input_volume : option Z;
  value : result A
}.

(** A piece of program, started with some value of [saved_input_volume]. *)
Definition M (A : Type) : Type := option Z -> run A.

Definition ret {A} (a : A) : M A := fun s => Run [] s (Done a).

Definition bind {A B} (m : M A) (k : A -> M B) : M B := fun s =>
  let '(Run t1 s1 v1) := m s in
  match v1 with
  | Done a => let '(Run t2 s2 v2) := k a s1 in Run (t1 ++ t2) s2 v2
  | Raised e => Run t1 s1 (Raised e)
  | Running => Run t1 s1 Running
  end.

Declare Scope prog_scope.
Delimit Scope prog_scope with prog.
Notation "x <- m ;; k" := (bind m (fun x => k))
  (at level 61, m at next level, right associativity) : prog_scope.
Notation "m ;; k" := (bind m (fun _ => k))
  (at level 61, right associativity) : prog_scope.
Local Open Scope prog_scope.

Definition raise {A} (e : exn) : M A := fun s => Run [] s (Raised e).

(** The loop is at its head and the environment script has no entry left. *)
Definition await {A} : M A := fun s => Run [] s Running.

Definition emit (e : event) : M unit := fun s => Run [e] s (Done tt).

Definition call {A} (ev : outcome A -> event) (o : outcome A) : M A :=
  fun s => Run [ev o] s (match o with Ret a => Done a | Exc e => Raised e end).

Definition get_saved : M (option Z) := fun s => Run [] s (Done s).
Definition set_saved (v : option Z) : M unit := fun _ => Run [] v (Done tt).

(** [try: body  except cls: handler] *)
Definition try_except {A} (cls : exn) (body handler : M A) : M A := fun s =>
  let '(Run t1 s1 v1) := body s in
  match v1 with
  | Raised e =>
      if exn_eqb e cls
      then let '(Run t2 s2 v2) := handler s1 in Run (t1 ++ t2) s2 v2
      else Run t1 s1 v1
  | _ => Run t1 s1 v1
  end.

(** [try: body  finally: final]: [final] runs on every way out of [body];
    an exception of [final] replaces whatever [body] ended with. *)
Definition try_finally {A} (body : M A) (final : M unit) : M A := fun s =>
  let '(Run t1 s1 v1) := body s in
  match v1 with
  | Running => Run t1 s1 Running
  | _ =>
      let '(Run t2 s2 v2) := final s1 in
      Run (t1 ++ t2) s2
          (match v2 with
           | Done _ => v1
           | Raised e => Raised e
           | Running => Running
           end)
  end.

Definition select (fd timeout_ms : Z) (o : outcome bool) : M bool :=
  call (EvSelect fd timeout_ms) o.
Definition os_read (fd n : Z) (o : outcome bytes) : M bytes :=
  call (EvRead fd n) o.
Definition os_write (fd : Z) (data : bytes) (o : outcome unit) : M unit :=
  call (EvWrite fd data) o.
Definition os_close (fd : Z) (o : outcome unit) : M unit :=
  call (EvClose fd) o.
Definition os_system (cmd : str) (o : outcome Z) : M Z :=
  call (EvSystem cmd) o.
Definition os_open (path : str) (flags : Z) (o : outcome Z) : M Z :=
  call (EvOpen path flags) o.
Definition fcntl_getfl (fd : Z) (o : outcome Z) : M Z :=
  call (EvGetfl fd) o.
Definition fcntl_setfl (fd flags : Z) (o : outcome unit) : M unit :=
  call (EvSetfl fd flags) o.
Definition subprocess_run (script : osa_script) (o : outcome str) : M str :=
  call (EvRun script) o.
(** [Popen] returns as soon as the child is started; its output is not read. *)
Definition subprocess_Popen (script : osa_script) (o : outcome str) : M unit :=
  call (EvPopen script)
       (match o with Ret _ => Ret tt | Exc e => Exc e end).
Definition sleep (secs : Z) (o : outcome unit) : M unit :=
  call (EvSleep secs) o.
Definition print (msg : log_msg) : M unit := emit (EvPrint msg).
Definition glob_glob (pattern : str) (found : list str) : M (list str) :=
  emit (EvGlob pattern found) ;; ret found.

(** [os.O_RDWR] and [os.O_NONBLOCK] on macOS, the platform of the script. *)
Definition O_RDWR : Z := 0x0002.
Definition O_NONBLOCK : Z := 0x0004.

(* ================================================================== *)
(** * The environment scripts                                          *)
(* ================================================================== *)

(** What the operating system answers during one iteration of the loop of
    [run_session]. *)
Record tick_env : Type := Tick {
  t_select : outcome bool;        (* select.select([fd], [], [], 0) *)
  t_read : outcome bytes;         (* os.read(fd, 256), when readable *)
  t_osa : nat -> outcome str;     (* the osascript started for the k-th
                                     complete line of this iteration *)
  t_front : outcome str;          (* stdout of the frontmost-app query *)
  t_write : outcome unit;         (* os.write(fd, ..), when something is sent *)
  t_sleep : outcome unit          (* time.sleep(1) *)
}.

(** What the operating system answers during one [open_port].  The flush loop
    reads [o_flush] while [select] reports the descriptor readable, then
    [o_idle] is the [select] that ends it ([Ret tt]: nothing arrived within
    the half second).  An exception of a call ends the loop whatever follows
    in the script; a device that never falls silent, which keeps the loop
    going for ever, has no script. *)
Record open_env : Type := Open {
  o_stty : outcome Z;             (* exit status of os.system("stty ..") *)
  o_open : outcome Z;             (* os.open: the descriptor *)
  o_flush : list (outcome bytes);
  o_idle : outcome unit;
  o_getfl : outcome Z;
  o_setfl : outcome unit
}.

(** What the operating system answers during one iteration of the loop of
    [main]. *)
Record attempt_env : Type := Attempt {
  a_glob : list str;              (* glob.glob("/dev/cu.usbmodem*") *)
  a_open : open_env;
  a_ticks : list tick_env;
  a_close : outcome unit;         (* os.close(fd) *)
  a_sleep : outcome unit          (* time.sleep(RETRY_INTERVAL) *)
}.

(* ================================================================== *)
(** * macropad_appname.py                                              *)
(* ================================================================== *)

Definition RETRY_INTERVAL : Z := 5.

(** The module starts with [saved_input_volume = None]. *)
Definition initial_saved_input_volume : option Z := None.

(** [int(..)] raising [ValueError]. *)
Definition int_of (s : str) : M Z :=
  match py_int s with
  | Some v => ret v
  | None => raise ValueError
  end.

(** [toggle_mic()]; [osa] is what the one [osascript] it starts does. *)
Definition toggle_mic (osa : outcome str) : M unit :=
  saved <- get_saved ;;
  match saved with
  | None =>
      stdout <- subprocess_run MuteAndReport osa ;;
      v <- int_of (strip stdout) ;;
      set_saved (Some v) ;;
      print (MsgMuted v)
  | Some restore =>
      set_saved None ;;
      subprocess_Popen (RestoreVolume restore) osa ;;
      print (MsgUnmuted restore)
  end.

(** [handle_serial_command(cmd)] *)
Definition handle_serial_command (cmd : str) (osa : outcome str) : M unit :=
  if str_eqb cmd (lit "MIC_TOGGLE")
  then toggle_mic osa
  else print (MsgUnknown cmd).

Fixpoint str_leb (a b : str) : bool :=
  match a, b with
  | [], _ => true
  | _ :: _, [] => false
  | x :: a', y :: b' =>
      if x <? y then true else if y <? x then false else str_leb a' b'
  end.

Fixpoint insert_sorted (x : str) (l : list str) : list str :=
  match l with
  | [] => [x]
  | y :: r => if str_leb x y then x :: l else y :: insert_sorted x r
  end.

(** [sorted(..)] on a list of [str]. *)
Definition sorted (l : list str) : list str := fold_right insert_sorted [] l.

(** [find_port()]; [argv] is [sys.argv]. *)
Definition find_port (argv : list str) (found : list str) : M (option str) :=
  match nth_error argv 1 with
  | Some port => ret (Some port)
  | None =>
      ports <- glob_glob (lit "/dev/cu.usbmodem*") found ;;
      match sorted ports with
      | first :: _ => ret (Some first)
      | [] => ret None
      end
  end.

(** The flush loop of [open_port], for the runs in which it ends: the reads of
    the script, then the [select] that finds the descriptor silent or raises.
    The loop of the source goes on for as long as the descriptor stays
    readable; a run in which it never ends has no script here, and nothing
    below says that the loop ends. *)
Fixpoint flush_startup (fd : Z) (reads : list (outcome bytes))
         (idle : outcome unit) : M unit :=
  match reads with
  | [] =>
      select fd 500 (match idle with Ret _ => Ret false | Exc e => Exc e end) ;;
      ret tt
  | r :: rest =>
      select fd 500 (Ret true) ;;
      os_read fd 4096 r ;;
      flush_startup fd rest idle
  end.

(** [open_port(port)] *)
Definition open_port (port : str) (env : open_env) : M (option Z) :=
  try_except OSError
    (os_system (lit "stty -f '" ++ port ++ lit "' 115200 raw -echo")
               (o_stty env) ;;
     fd <- os_open port (Z.lor O_RDWR O_NONBLOCK) (o_open env) ;;
     flush_startup fd (o_flush env) (o_idle env) ;;
     flags <- fcntl_getfl fd (o_getfl env) ;;
     fcntl_setfl fd (Z.land flags (Z.lnot O_NONBLOCK)) (o_setfl env) ;;
     ret (Some fd))
    (print (MsgOpenFailed port) ;; ret None).

(** [buf.split(b'\n', 1)] when [b'\n' in buf], [None] when it is not. *)
Fixpoint split1 (buf : bytes) : option (bytes * bytes) :=
  match buf with
  | [] => None
  | b :: r =>
      if Byte.eqb b LF_byte then Some ([], r)
      else match split1 r with
           | Some (line, rest) => Some (b :: line, rest)
           | None => None
           end
  end.

(** The lines the [while b'\n' in read_buf] loop takes off the buffer, in
    order, and the buffer it leaves ([split_lines_loop] below is the equation
    of that loop). *)
Fixpoint split_lines (buf : bytes) : list bytes * bytes :=
  match buf with
  | [] => ([], [])
  | b :: r =>
      let '(lines, tail) := split_lines r in
      if Byte.eqb b LF_byte then ([] :: lines, tail)
      else match lines with
           | [] => ([], b :: tail)
           | l :: ls => ((b :: l) :: ls, tail)
           end
  end.

(** The body of that loop once a line is taken off, for each line in turn. *)
Fixpoint dispatch_lines (osa : nat -> outcome str) (k : nat)
         (lines : list bytes) : M unit :=
  match lines with
  | [] => ret tt
  | line :: rest =>
      let cmd := strip (decode line) in
      (if truthy cmd then handle_serial_command cmd (osa k) else ret tt) ;;
      dispatch_lines osa (S k) rest
  end.

Inductive DisconnectReason : Type := Eof | ReadError | WriteError.

(** One pass through a part of the loop body: it executes one of the three
    [return] statements of [run_session], or goes on. *)
Inductive step (A : Type) : Type :=
| Return (why : DisconnectReason)
| Next (a : A).
Arguments Return {A} why.

(** First half of the loop body of [run_session] (lines 93-109). *)
Definition read_phase (fd : Z) (t : tick_env) (read_buf : bytes)
  : M (step bytes) :=
  readable <- select fd 0 (t_select t) ;;
  if readable then
    try_except OSError
      (chunk <- os_read fd 256 (t_read t) ;;
       match chunk with
       | [] => print MsgEof ;; ret (Return Eof)
       | _ :: _ =>
           let '(lines, tail) := split_lines (read_buf ++ chunk) in
           dispatch_lines (t_osa t) 0 lines ;;
           ret (Next tail)
       end)
      (print MsgReadError ;; ret (Return ReadError))
  else ret (Next read_buf).

(** Second half of the loop body of [run_session] (lines 111-127). *)
Definition send_phase (fd : Z) (t : tick_env) (last_app : str)
  : M (step str) :=
  stdout <- subprocess_run FrontmostApp (t_front t) ;;
  let app := strip stdout in
  if truthy app && negb (str_eqb app last_app) then
    sent <- try_except OSError
              (os_write fd (encode (app ++ [LF])) (t_write t) ;; ret true)
              (print MsgWriteError ;; ret false) ;;
    if sent then
      print (MsgSent app) ;;
      sleep 1 (t_sleep t) ;;
      ret (Next app)
    else ret (Return WriteError)
  else
    sleep 1 (t_sleep t) ;;
    ret (Next last_app).

(** The [while True] of [run_session], from given values of its locals. *)
Fixpoint session_loop (fd : Z) (last_app : str) (read_buf : bytes)
         (ticks : list tick_env) : M DisconnectReason :=
  match ticks with
  | [] => await
  | t :: rest =>
      r <- read_phase fd t read_buf ;;
      match r with
      | Return why => ret why
      | Next read_buf' =>
          s <- send_phase fd t last_app ;;
          match s with
          | Return why => ret why
          | Next last_app' => session_loop fd last_app' read_buf' rest
          end
      end
  end.

(** [run_session(fd)] *)
Definition run_session (fd : Z) (ticks : list tick_env) : M DisconnectReason :=
  try_except KeyboardInterrupt
    (session_loop fd [] [] ticks)
    (raise KeyboardInterrupt).

(** Why an iteration of [main] goes round again. *)
Inductive failure : Type :=
| NotFound
| OpenError
| Disconnect (why : DisconnectReason).

(** How an iteration of [main] leaves the loop body. *)
Inductive loop_ctl : Type :=
| Again (why : failure)
| Break.

(** The [try] statement of [main] (lines 146-155): the session, the handler
    of the interrupt, and the [finally] clause that closes the descriptor,
    swallowing an [OSError] of [os.close]. *)
Definition guarded_session (fd : Z) (a : attempt_env) : M loop_ctl :=
  try_finally
    (try_except KeyboardInterrupt
       (why <- run_session fd (a_ticks a) ;;
        ret (Again (Disconnect why)))
       (print MsgStopped ;; ret Break))
    (try_except OSError (os_close fd (a_close a)) (ret tt)).

(** The loop body of [main] once [find_port()] has returned. *)
Definition after_find_port (a : attempt_env) (port : option str) : M loop_ctl :=
  match port with
  | None =>
      print MsgNoMacroPad ;;
      sleep RETRY_INTERVAL (a_sleep a) ;;
      ret (Again NotFound)
  | Some port =>
      print (MsgConnecting port) ;;
      fd <- open_port port (a_open a) ;;
      match fd with
      | None =>
          sleep RETRY_INTERVAL (a_sleep a) ;;
          ret (Again OpenError)
      | Some fd =>
          print (MsgConnected port) ;;
          c <- guarded_session fd a ;;
          match c with
          | Break => ret Break
          | Again why =>
              print MsgReconnecting ;;
              sleep RETRY_INTERVAL (a_sleep a) ;;
              ret (Again why)
          end
      end
  end.

(** One iteration of the [while True] of [main].  [EvFindPort] marks the call
    of [find_port()] at the head of the loop. *)
Definition main_body (argv : list str) (a : attempt_env) : M loop_ctl :=
  port <- find_port argv (a_glob a) ;;
  emit (EvFindPort port) ;;
  after_find_port a port.

(** [main()]: it returns when the loop is left by [break]. *)
Fixpoint main (argv : list str) (attempts : list attempt_env) : M unit :=
  match attempts with
  | [] => await
  | a :: rest =>
      c <- main_body argv a ;;
      match c with
      | Again _ => main argv rest
      | Break => ret tt
      end
  end.

(* ================================================================== *)
(** * Observations on runs, and the notions of the specification       *)
(* ================================================================== *)

(** The payloads accepted by [os.write], in order. *)
Definition written (tr : list event) : list bytes :=
  flat_map (fun e => match e with
                     | EvWrite _ data (Ret _) => [data]
                     | _ => []
                     end) tr.

(** The application names obtained by the frontmost-app query, in order. *)
Definition queried (tr : list event) : list str :=
  flat_map (fun e => match e with
                     | EvRun FrontmostApp (Ret stdout) => [strip stdout]
                     | _ => []
                     end) tr.

(** No [os.write] of the run raised. *)
Definition writes_succeed (tr : list event) : bool :=
  forallb (fun e => match e with
                    | EvWrite _ _ (Exc _) => false
                    | _ => true
                    end) tr.

(** A sequence of names without the elements equal to their predecessor;
    [prev] is the element before the sequence. *)
Fixpoint dedup_after (prev : str) (l : list str) : list str :=
  match l with
  | [] => []
  | x :: r => if str_eqb x prev then dedup_after prev r
              else x :: dedup_after x r
  end.

(** A sequence of names with consecutive duplicates removed. *)
Definition dedup_consecutive (l : list str) : list str :=
  match l with
  | [] => []
  | x :: r => x :: dedup_after x r
  end.

(** A name as it goes on the wire: its UTF-8 text and one line feed. *)
Definition payload (name : str) : bytes := encode name ++ [LF_byte].

(** The line-buffering step of the session, seen on its own: append the chunk
    to the buffer, take the complete lines off and decode them; the first
    component is the buffer left. *)
Definition feed (read_buf chunk : bytes) : bytes * list str :=
  let '(lines, tail) := split_lines (read_buf ++ chunk) in
  (tail, map decode lines).

(** The step repeated over the chunks of successive reads. *)
Fixpoint feed_chunks (read_buf : bytes) (chunks : list bytes)
  : bytes * list str :=
  match chunks with
  | [] => (read_buf, [])
  | c :: rest =>
      let '(buf1, lines1) := feed read_buf c in
      let '(buf2, lines2) := feed_chunks buf1 rest in
      (buf2, lines1 ++ lines2)
  end.

(** The host as the three AppleScript programs see it. *)
Record host : Type := Host {
  input_volume : Z;
  frontmost : str
}.

(** What [osascript] does to the host with each program, and what it prints. *)
Definition osascript (s : osa_script) (h : host) : host * str :=
  match s with
  | MuteAndReport =>
      (Host 0 (frontmost h), py_str (input_volume h) ++ [LF])
  | RestoreVolume restore => (Host restore (frontmost h), [])
  | FrontmostApp => (h, frontmost h ++ [LF])
  end.

(** Number of [os.close(fd)] calls in a trace. *)
Definition closes (fd : Z) (tr : list event) : nat :=
  List.length (filter (fun e => match e with
                                | EvClose fd' _ => Z.eqb fd' fd
                                | _ => false
                                end) tr).

(** Number of completed waits of [RETRY_INTERVAL] seconds. *)
Definition cooldowns (tr : list event) : nat :=
  List.length (filter (fun e => match e with
                                | EvSleep secs (Ret _) => Z.eqb secs RETRY_INTERVAL
                                | _ => false
                                end) tr).

(** Number of times the loop of [main] came to its head and looked for the
    port. *)
Definition locatings (tr : list event) : nat :=
  List.length (filter (fun e => match e with
                                | EvFindPort _ => true
                                | _ => false
                                end) tr).

(** Some call of the run was cut short by the external interrupt. *)
Definition interrupted (tr : list event) : bool :=
  existsb (fun e => match e with
                    | EvSelect _ _ (Exc KeyboardInterrupt)
                    | EvRead _ _ (Exc KeyboardInterrupt)
                    | EvWrite _ _ (Exc KeyboardInterrupt)
                    | EvClose _ (Exc KeyboardInterrupt)
                    | EvSystem _ (Exc KeyboardInterrupt)
                    | EvOpen _ _ (Exc KeyboardInterrupt)
                    | EvGetfl _ (Exc KeyboardInterrupt)
                    | EvSetfl _ _ (Exc KeyboardInterrupt)
                    | EvRun _ (Exc KeyboardInterrupt)
                    | EvPopen _ (Exc KeyboardInterrupt)
                    | EvSleep _ (Exc KeyboardInterrupt) => true
                    | _ => false
                    end) tr.

(** The iteration of [main] ends in one of the failures that send the loop
    round again. *)
Definition goes_again (r : run loop_ctl) : bool :=
  match value r with
  | Done (Again _) => true
  | _ => false
  end.

(** Every iteration of a run of [main] over [attempts] ends in such a
    failure. *)
Fixpoint all_fail (argv : list str) (attempts : list attempt_env)
         (s : option Z) : bool :=
  match attempts with
  | [] => true
  | a :: rest =>
      let r := main_body argv a s in
      goes_again r && all_fail argv rest (saved_input_volume r)
  end.

(* ================================================================== *)
(** * Vocabulary of the proofs                                         *)
(* ================================================================== *)

(** No character of [s] is one that [strip] removes. *)
Definition spaceless (s : str) : Prop := Forall (fun c => isspace c = false) s.

(** [emits Q m]: every call of every run of [m] satisfies [Q]. *)
Definition emits (Q : event -> Prop) {A} (m : M A) : Prop :=
  forall s, Forall Q (trace (m s)).

(** The calls of the first half of the loop body of [run_session], dispatch
    included. *)
Definition read_event (fd : Z) (e : event) : Prop :=
  match e with
  | EvSelect fd' 0%Z _ => fd' = fd
  | EvRead fd' 256%Z _ => fd' = fd
  | EvRun MuteAndReport _ => True
  | EvPopen (RestoreVolume _) _ => True
  | EvPrint _ => True
  | _ => False
  end.

(** The calls of a session. *)
Definition session_event (fd : Z) (e : event) : Prop :=
  match e with
  | EvWrite fd' _ _ => fd' = fd
  | EvRun FrontmostApp _ => True
  | EvSleep 1%Z _ => True
  | _ => read_event fd e
  end.

(** The calls of [open_port]. *)
Definition open_event (e : event) : Prop :=
  match e with
  | EvSystem _ _ | EvOpen _ _ _ | EvSelect _ 500%Z _ | EvRead _ 4096%Z _
  | EvGetfl _ _ | EvSetfl _ _ _ | EvPrint _ => True
  | _ => False
  end.

(** The loop body of [run_session] after its first half, and the iterations
    that follow. *)
Definition after_read (fd : Z) (t : tick_env) (last_app : str)
           (read_buf : bytes) (rest : list tick_env) : M DisconnectReason :=
  x <- send_phase fd t last_app ;;
  match x with
  | Return why => ret why
  | Next last_app' => session_loop fd last_app' read_buf rest
  end.

(** The property of [C1] for a loop started with any value of [last_app]. *)
Definition sends_changes (last_app : str) (r : run DisconnectReason) : Prop :=
  writes_succeed (trace r) = true ->
  written (trace r) =
  map payload (dedup_after last_app (filter truthy (queried (trace r)))).

(** Calls that are neither a wait of [RETRY_INTERVAL] seconds nor the lookup
    of the port at the head of the loop. *)
Definition calm (e : event) : Prop :=
  match e with
  | EvSleep secs _ => secs <> RETRY_INTERVAL
  | EvFindPort _ => False
  | _ => True
  end.

(** The run of an iteration completes one wait of [RETRY_INTERVAL] seconds
    when it ends in a failure, and none otherwise. *)
Definition cools (r : run loop_ctl) : Prop :=
  cooldowns (trace r) = if goes_again r then 1%nat else 0%nat.

(** Calls other than the lookup of the port at the head of the loop. *)
Definition unlocated (e : event) : Prop :=
  match e with EvFindPort _ => False | _ => True end.

(** An iteration that ends in a failure ends with the completed wait. *)
Definition ends_cooled (r : run loop_ctl) : Prop :=
  forall why, value r = Done (Again why) ->
              exists pre, trace r = pre ++ [EvSleep RETRY_INTERVAL (Ret tt)].

(** [honest m]: a run of [m] ends with [KeyboardInterrupt] in flight only when
    one of its calls was interrupted. *)
Definition honest {A} (m : M A) : Prop :=
  forall s, value (m s) = Raised KeyboardInterrupt ->
            interrupted (trace (m s)) = true.

(** An iteration leaves the loop by [break] only when a call was cut short by
    the interrupt. *)
Definition breaks_interrupted (r : run loop_ctl) : Prop :=
  value r = Done Break -> interrupted (trace r) = true.

(** [keeps m]: [m] leaves [saved_input_volume] as it found it. *)
Definition keeps {A} (m : M A) : Prop :=
  forall s, saved_input_volume (m s) = s.

(** The first element of a list of paths is not after any element of the
    list, in the order of [sorted]. *)
Definition least_first (l : list str) : Prop :=
  match l with
  | [] => True
  | p :: _ => forall q, In q l -> str_leb p q = true
  end.

(** The line [run_session] prints before each of its [return] statements. *)
Definition farewell (why : DisconnectReason) : log_msg :=
  match why with
  | Eof => MsgEof
  | ReadError => MsgReadError
  | WriteError => MsgWriteError
  end.

(** A part of the loop body that executes a [return] has printed the line of
    that [return] last. *)
Definition announced {A} (r : run (step A)) : Prop :=
  forall why, value r = Done (Return why) ->
              exists pre, trace r = pre ++ [EvPrint (farewell why)].

(** A session that returns has printed the line of its [return] last. *)
Definition announced_return (r : run DisconnectReason) : Prop :=
  forall why, value r = Done why ->
              exists pre, trace r = pre ++ [EvPrint (farewell why)].

(* ================================================================== *)
(** * Text: equality, encoding, stripping, decimal round trip          *)
(* ================================================================== *)

Lemma str_eqb_eq : forall a b, str_eqb a b = true <-> a = b.
Proof.
  induction a as [|x a IH]; destruct b as [|y b]; simpl; split;
    try congruence; try reflexivity.
  - intros H. apply andb_true_iff in H. destruct H as [Hx Hr].
    apply N.eqb_eq in Hx. apply IH in Hr. congruence.
  - intros H. injection H as -> ->. rewrite N.eqb_refl. simpl.
    apply IH. reflexivity.
Qed.

Lemma str_eqb_refl : forall a, str_eqb a a = true.
Proof. intros a. apply str_eqb_eq. reflexivity. Qed.

Lemma str_eqb_neq : forall a b, str_eqb a b = false <-> a <> b.
Proof.
  intros a b. split.
  - intros H E. apply str_eqb_eq in E. congruence.
  - intros H. destruct (str_eqb a b) eqn:E; [|reflexivity].
    apply str_eqb_eq in E. contradiction.
Qed.

Lemma truthy_not_empty : forall s, truthy s = true -> str_eqb s [] = false.
Proof. intros [|c s]; simpl; congruence. Qed.

Lemma encode_app : forall a b, encode (a ++ b) = encode a ++ encode b.
Proof. intros a b. unfold encode. apply flat_map_app. Qed.

(** The text [name + "\n"], encoded, is the encoded name and one LF byte. *)
Lemma encode_line : forall name, encode (name ++ [LF]) = payload name.
Proof. intros name. rewrite encode_app. reflexivity. Qed.

Lemma lstrip_spaceless : forall s, spaceless s -> lstrip s = s.
Proof.
  intros [|c s] H; simpl; [reflexivity|].
  inversion H as [|? ? Hc _]; subst. rewrite Hc. reflexivity.
Qed.

Lemma rstrip_spaceless : forall s, spaceless s -> rstrip s = s.
Proof.
  intros s H. unfold rstrip. rewrite lstrip_spaceless.
  - apply rev_involutive.
  - apply Forall_rev. exact H.
Qed.

Lemma strip_spaceless : forall s, spaceless s -> strip s = s.
Proof.
  intros s H. unfold strip. rewrite rstrip_spaceless by exact H.
  apply lstrip_spaceless. exact H.
Qed.

(** A trailing line feed, as [osascript] prints after its result, is removed
    by [strip]. *)
Lemma strip_trailing_LF : forall s, spaceless s -> strip (s ++ [LF]) = s.
Proof.
  intros s H. unfold strip, rstrip. rewrite rev_app_distr. simpl.
  change (rev (lstrip (rev s))) with (rstrip s).
  rewrite rstrip_spaceless by exact H. apply lstrip_spaceless. exact H.
Qed.

Lemma digits_spaceless : forall d, spaceless (digits d).
Proof.
  induction d; simpl; constructor; try assumption; reflexivity.
Qed.

Lemma py_str_spaceless : forall v, spaceless (py_str v).
Proof.
  intros v. unfold py_str. destruct (Z.to_int v).
  - apply digits_spaceless.
  - constructor; [reflexivity | apply digits_spaceless].
Qed.

Lemma parse_digits_after : forall d, parse_digits true (digits d) = Some d.
Proof.
  induction d; simpl; try reflexivity; rewrite IHd; reflexivity.
Qed.

Lemma parse_digits_digits :
  forall d, d <> Decimal.Nil -> parse_digits false (digits d) = Some d.
Proof.
  intros d H. destruct d; try congruence; simpl;
    rewrite parse_digits_after; reflexivity.
Qed.

Lemma digits_head :
  forall d, d <> Decimal.Nil ->
  exists c r, digits d = c :: r /\ (c =? 0x2D) = false /\ (c =? 0x2B) = false.
Proof.
  intros d H. destruct d; try congruence; simpl;
    eexists; eexists; repeat split; reflexivity.
Qed.

(** [int(str(v)) == v] *)
Lemma py_int_py_str : forall v, py_int (py_str v) = Some v.
Proof.
  intros v. unfold py_int.
  rewrite (strip_spaceless (py_str_spaceless v)).
  unfold py_str. destruct v as [|p|p]; simpl Z.to_int; cbv iota beta.
  - reflexivity.
  - pose proof (DecimalPos.Unsigned.to_uint_nonnil p) as Hn.
    destruct (digits_head Hn) as (c & r & E & Hm & Hp).
    rewrite E, Hm, Hp, <- E, (parse_digits_digits Hn). simpl option_map.
    f_equal. exact (DecimalZ.of_to (Z.pos p)).
  - pose proof (DecimalPos.Unsigned.to_uint_nonnil p) as Hn.
    change (0x2D =? 0x2D) with true. cbv iota.
    rewrite (parse_digits_digits Hn). simpl option_map.
    f_equal. exact (DecimalZ.of_to (Z.neg p)).
Qed.

(** What [toggle_mic] makes of the output of a host whose input volume is
    [v]. *)
Lemma py_int_reply : forall v, py_int (strip (py_str v ++ [LF])) = Some v.
Proof.
  intros v. rewrite (strip_trailing_LF (py_str_spaceless v)).
  apply py_int_py_str.
Qed.

(* ================================================================== *)
(** * The line buffer                                                  *)
(* ================================================================== *)

(** The equation of the [while b'\n' in read_buf] loop: when the buffer holds
    a line feed, the bytes before the first one are the next line and the loop
    goes on with the bytes after it; when it holds none, the loop is over and
    the buffer is what is left. *)
Lemma split_lines_loop :
  forall buf,
    split_lines buf =
    match split1 buf with
    | Some (line, rest) =>
        let '(lines, tail) := split_lines rest in (line :: lines, tail)
    | None => ([], buf)
    end.
Proof.
  induction buf as [|b r IH]; [reflexivity|].
  simpl. destruct (Byte.eqb b LF_byte).
  - destruct (split_lines r). reflexivity.
  - rewrite IH. destruct (split1 r) as [[line rest]|].
    + destruct (split_lines rest). reflexivity.
    + reflexivity.
Qed.

Lemma split_lines_app :
  forall a b,
    split_lines (a ++ b) =
    let '(lines1, tail1) := split_lines a in
    let '(lines2, tail2) := split_lines (tail1 ++ b) in
    (lines1 ++ lines2, tail2).
Proof.
  induction a as [|x a IH]; intros b.
  - simpl. destruct (split_lines b). reflexivity.
  - simpl. rewrite IH. destruct (split_lines a) as [lines1 tail1].
    destruct (Byte.eqb x LF_byte) eqn:Hx.
    + destruct (split_lines (tail1 ++ b)). reflexivity.
    + destruct lines1 as [|l ls]; simpl.
      * rewrite Hx. destruct (split_lines (tail1 ++ b)) as [[|l2 ls2] tail2];
          reflexivity.
      * destruct (split_lines (tail1 ++ b)). reflexivity.
Qed.

(** The buffer left by the loop holds no complete line. *)
Lemma split_lines_tail :
  forall buf, split_lines (snd (split_lines buf)) = ([], snd (split_lines buf)).
Proof.
  induction buf as [|x r IH]; [reflexivity|].
  simpl. destruct (split_lines r) as [lines tail]. simpl in IH.
  destruct (Byte.eqb x LF_byte) eqn:Hx; simpl; [exact IH|].
  destruct lines; simpl; [|exact IH].
  rewrite IH, Hx. reflexivity.
Qed.

Lemma feed_chunks_from :
  forall chunks buf,
    split_lines buf = ([], buf) ->
    feed_chunks buf chunks = feed buf (List.concat chunks).
Proof.
  induction chunks as [|c rest IH]; intros buf Hbuf.
  - simpl. unfold feed. rewrite app_nil_r, Hbuf. reflexivity.
  - simpl. unfold feed at 2. rewrite app_assoc, split_lines_app.
    unfold feed at 1.
    pose proof (split_lines_tail (buf ++ c)) as Ht.
    destruct (split_lines (buf ++ c)) as [lines1 tail1]. simpl in Ht.
    rewrite (IH tail1 Ht). unfold feed.
    destruct (split_lines (tail1 ++ List.concat rest)) as [lines2 tail2].
    rewrite map_app. reflexivity.
Qed.

(* ================================================================== *)
(** * Runs: sequencing and handlers                                    *)
(* ================================================================== *)

Lemma bind_Done :
  forall A B (m : M A) (k : A -> M B) s t s1 a,
    m s = Run t s1 (Done a) ->
    bind m k s = Run (t ++ trace (k a s1)) (saved_input_volume (k a s1))
                     (value (k a s1)).
Proof.
  intros A B m k s t s1 a H. unfold bind. rewrite H.
  destruct (k a s1). reflexivity.
Qed.

Lemma bind_Raised :
  forall A B (m : M A) (k : A -> M B) s t s1 e,
    m s = Run t s1 (Raised e) -> bind m k s = Run t s1 (Raised e).
Proof. intros A B m k s t s1 e H. unfold bind. rewrite H. reflexivity. Qed.

Lemma bind_Running :
  forall A B (m : M A) (k : A -> M B) s t s1,
    m s = Run t s1 Running -> bind m k s = Run t s1 Running.
Proof. intros A B m k s t s1 H. unfold bind. rewrite H. reflexivity. Qed.

Lemma run_eta : forall A (r : run A),
    r = Run (trace r) (saved_input_volume r) (value r).
Proof. intros A [t s v]. reflexivity. Qed.

(** Unfolds the calls and handlers of a piece of program whose environment
    is known and computes its run. *)
Ltac run_it :=
  cbv [toggle_mic handle_serial_command int_of subprocess_run subprocess_Popen
       select os_read os_write os_close os_system os_open fcntl_getfl
       fcntl_setfl sleep print glob_glob call emit ret raise await
       get_saved set_saved bind try_except try_finally exn_eqb];
  cbn [trace saved_input_volume value app].

(* ================================================================== *)
(** * The microphone toggle                                            *)
(* ================================================================== *)

Lemma handle_MIC_TOGGLE :
  forall osa, handle_serial_command (lit "MIC_TOGGLE") osa = toggle_mic osa.
Proof. reflexivity. Qed.

Lemma toggle_mic_mute :
  forall stdout v s,
    s = None -> py_int (strip stdout) = Some v ->
    toggle_mic (Ret stdout) s =
    Run [EvRun MuteAndReport (Ret stdout); EvPrint (MsgMuted v)]
        (Some v) (Done tt).
Proof. intros stdout v s -> H. run_it. rewrite H. reflexivity. Qed.

Lemma toggle_mic_unmute :
  forall started v,
    toggle_mic (Ret started) (Some v) =
    Run [EvPopen (RestoreVolume v) (Ret tt); EvPrint (MsgUnmuted v)]
        None (Done tt).
Proof. reflexivity. Qed.

(** C3. With the microphone unmuted and a host whose input volume is [v], the
    command [MIC_TOGGLE] runs the one script that reports [v] and sets the
    input volume to 0, and leaves [saved_input_volume = v]; the next
    [MIC_TOGGLE] starts, without waiting for it, the script that sets the
    input volume back to [v], and leaves [saved_input_volume = None]. *)
Theorem mic_toggle_mutes_then_restores :
  forall (v : Z) (app started : str),
    let h := Host v app in
    let h1 := fst (osascript MuteAndReport h) in
    let stdout := snd (osascript MuteAndReport h) in
    handle_serial_command (lit "MIC_TOGGLE") (Ret stdout) None =
      Run [EvRun MuteAndReport (Ret stdout); EvPrint (MsgMuted v)]
          (Some v) (Done tt)
    /\ input_volume h1 = 0%Z
    /\ handle_serial_command (lit "MIC_TOGGLE") (Ret started) (Some v) =
      Run [EvPopen (RestoreVolume v) (Ret tt); EvPrint (MsgUnmuted v)]
          None (Done tt)
    /\ input_volume (fst (osascript (RestoreVolume v) h1)) = v.
Proof.
  intros v app started h h1 stdout. repeat split.
  rewrite handle_MIC_TOGGLE. apply toggle_mic_mute; [reflexivity|].
  apply py_int_reply.
Qed.

(** C4, at the input where it fails.  With the microphone unmuted and a host
    that has no input device ([osascript] prints [missing value]), the toggle
    has set nothing when [int()] raises: [saved_input_volume] is still
    [None], and the call ends with [ValueError] in flight. *)
Theorem toggle_mic_missing_value_keeps_unmuted :
  let r := toggle_mic (Ret (lit "missing value" ++ [LF]))
                      initial_saved_input_volume in
  saved_input_volume r = None /\ value r = Raised ValueError.
Proof. vm_compute. split; reflexivity. Qed.

(** Whenever the toggle returns, the variant has changed. *)
Lemma toggle_mic_flips :
  forall osa s r,
    toggle_mic osa s = r -> value r = Done tt ->
    match s with
    | None => exists v, saved_input_volume r = Some v
    | Some _ => saved_input_volume r = None
    end.
Proof.
  intros osa s r <- H. destruct s as [v|].
  - destruct osa; reflexivity.
  - destruct osa as [stdout|e]; [|discriminate H].
    revert H. run_it. destruct (py_int (strip stdout)) as [v|]; simpl.
    + intros _. exists v. reflexivity.
    + discriminate.
Qed.

(** Outside [toggle_mic] nothing assigns [saved_input_volume]: looking for
    the port, opening it, closing the descriptor and waiting leave it as it
    is, so that an iteration of [main] ends with the value its session, if
    any, ended with. *)
Lemma keeps_ret : forall A (a : A), keeps (ret a).
Proof. intros A a s. reflexivity. Qed.

Lemma keeps_call : forall A (ev : outcome A -> event) o, keeps (call ev o).
Proof. intros A ev o s. reflexivity. Qed.

Lemma keeps_emit : forall e, keeps (emit e).
Proof. intros e s. reflexivity. Qed.

Lemma keeps_bind :
  forall A B (m : M A) (k : A -> M B),
    keeps m -> (forall a, keeps (k a)) -> keeps (bind m k).
Proof.
  intros A B m k Hm Hk s. unfold bind. specialize (Hm s).
  destruct (m s) as [t1 s1 [a| |]]; simpl in *; try exact Hm.
  specialize (Hk a s1). destruct (k a s1) as [t2 s2 v2]. simpl in *.
  congruence.
Qed.

Lemma keeps_try_except :
  forall A cls (body handler : M A),
    keeps body -> keeps handler -> keeps (try_except cls body handler).
Proof.
  intros A cls body handler Hb Hh s. unfold try_except. specialize (Hb s).
  destruct (body s) as [t1 s1 [a|e|]]; simpl in *; try exact Hb.
  destruct (exn_eqb e cls); [|exact Hb].
  specialize (Hh s1). destruct (handler s1) as [t2 s2 v2]. simpl in *.
  congruence.
Qed.

Lemma keeps_find_port : forall argv found, keeps (find_port argv found).
Proof.
  intros argv found. unfold find_port.
  destruct (nth_error argv 1); [apply keeps_ret|].
  apply keeps_bind.
  - apply keeps_bind; [apply keeps_emit | intros _; apply keeps_ret].
  - intros ports. destruct (sorted ports); apply keeps_ret.
Qed.

Lemma keeps_flush_startup :
  forall fd reads idle, keeps (flush_startup fd reads idle).
Proof.
  intros fd reads idle. induction reads as [|r rest IH]; simpl.
  - apply keeps_bind; [apply keeps_call | intros _; apply keeps_ret].
  - apply keeps_bind; [apply keeps_call | intros _].
    apply keeps_bind; [apply keeps_call | intros _; apply IH].
Qed.

Lemma keeps_open_port : forall port env, keeps (open_port port env).
Proof.
  intros port env. unfold open_port. apply keeps_try_except.
  - apply keeps_bind; [apply keeps_call | intros _].
    apply keeps_bind; [apply keeps_call | intros fd].
    apply keeps_bind; [apply keeps_flush_startup | intros _].
    apply keeps_bind; [apply keeps_call | intros flags].
    apply keeps_bind; [apply keeps_call | intros _; apply keeps_ret].
  - apply keeps_bind; [apply keeps_emit | intros _; apply keeps_ret].
Qed.

Lemma guarded_session_saved :
  forall fd a s,
    saved_input_volume (guarded_session fd a s) =
    saved_input_volume (run_session fd (a_ticks a) s).
Proof.
  intros fd a s.
  unfold guarded_session, try_finally, try_except, bind, os_close, call,
    print, emit, ret.
  destruct (run_session fd (a_ticks a) s) as [t1 s1 [why|e|]]; simpl.
  - destruct (a_close a) as [[]|[]]; reflexivity.
  - destruct e; destruct (a_close a) as [[]|[]]; reflexivity.
  - reflexivity.
Qed.

Lemma saved_bind :
  forall A B (m : M A) (k : A -> M B) s,
    saved_input_volume (bind m k s) =
    match value (m s) with
    | Done a => saved_input_volume (k a (saved_input_volume (m s)))
    | _ => saved_input_volume (m s)
    end.
Proof.
  intros A B m k s. unfold bind.
  destruct (m s) as [t1 s1 [a| |]]; try reflexivity.
  simpl. destruct (k a s1). reflexivity.
Qed.

Lemma keeps_cooldown :
  forall o why, keeps (sleep RETRY_INTERVAL o ;; ret (Again why)).
Proof. intros [[]|e] why s; reflexivity. Qed.

Lemma main_body_saved :
  forall argv a s,
    saved_input_volume (main_body argv a s) = s
    \/ exists fd,
        saved_input_volume (main_body argv a s) =
        saved_input_volume (run_session fd (a_ticks a) s).
Proof.
  intros argv a s. unfold main_body.
  rewrite saved_bind, (keeps_find_port argv (a_glob a) s).
  destruct (value (find_port argv (a_glob a) s)) as [port| |];
    try (left; reflexivity).
  rewrite saved_bind. cbn [emit value saved_input_volume].
  unfold after_find_port. destruct port as [port|];
    [|left; rewrite saved_bind; apply keeps_cooldown].
  rewrite saved_bind. cbn [print emit value saved_input_volume].
  rewrite saved_bind, (keeps_open_port port (a_open a) s).
  destruct (value (open_port port (a_open a) s)) as [[fd|]| |];
    try (left; reflexivity); [|left; apply keeps_cooldown].
  right. exists fd.
  rewrite saved_bind. cbn [print emit value saved_input_volume].
  rewrite saved_bind, guarded_session_saved.
  destruct (value (guarded_session fd a s)) as [[why|]| |]; try reflexivity.
  rewrite saved_bind. cbn [print emit value saved_input_volume].
  apply keeps_cooldown.
Qed.

(* ================================================================== *)
(** * Dispatch of the lines received                                   *)
(* ================================================================== *)

Lemma dispatch_unknown :
  forall cmd osa s,
    str_eqb cmd (lit "MIC_TOGGLE") = false ->
    handle_serial_command cmd osa s = Run [EvPrint (MsgUnknown cmd)] s (Done tt).
Proof.
  intros cmd osa s H. unfold handle_serial_command. rewrite H. reflexivity.
Qed.

(** C5. A received line whose stripped text is neither empty nor
    [MIC_TOGGLE] is logged and dropped: the only effect of its dispatch is the
    [Unknown command] line, [saved_input_volume] is untouched, nothing is
    raised; and the first half of the iteration that received it goes on to
    the second half instead of executing a [return]. *)
Theorem unknown_command_is_logged_and_dropped :
  forall (line : bytes) (osa : nat -> outcome str) (k : nat) (s : option Z),
    truthy (strip (decode line)) = true ->
    str_eqb (strip (decode line)) (lit "MIC_TOGGLE") = false ->
    dispatch_lines osa k [line] s =
      Run [EvPrint (MsgUnknown (strip (decode line)))] s (Done tt)
    /\ forall fd t read_buf c chunk tail,
        t_select t = Ret true ->
        t_read t = Ret (c :: chunk) ->
        split_lines (read_buf ++ c :: chunk) = ([line], tail) ->
        read_phase fd t read_buf s =
          Run [EvSelect fd 0 (Ret true); EvRead fd 256 (Ret (c :: chunk));
               EvPrint (MsgUnknown (strip (decode line)))]
              s (Done (Next tail)).
Proof.
  intros line osa k s Hne Hunk.
  assert (D : forall osa' k',
             dispatch_lines osa' k' [line] s =
             Run [EvPrint (MsgUnknown (strip (decode line)))] s (Done tt)).
  { intros osa' k'. simpl. rewrite Hne.
    unfold bind. rewrite dispatch_unknown by exact Hunk. reflexivity. }
  split; [apply D|].
  intros fd t read_buf c chunk tail Hsel Hrd Hsplit.
  unfold read_phase. rewrite Hsel, Hrd.
  cbv [select os_read call bind try_except]. rewrite Hsplit, D. reflexivity.
Qed.

Lemma unknown_command_witness :
  dispatch_lines (fun _ => Ret []) 0 [encode (lit "FOO_BAR")] (Some 42%Z) =
    Run [EvPrint (MsgUnknown (lit "FOO_BAR"))] (Some 42%Z) (Done tt)
  /\ read_phase 3 (Tick (Ret true) (Ret (encode (lit "FOO_BAR") ++ [x0a]))
                       (fun _ => Ret []) (Ret []) (Ret tt) (Ret tt))
                [] (Some 42%Z) =
    Run [EvSelect 3 0 (Ret true);
         EvRead 3 256 (Ret (encode (lit "FOO_BAR") ++ [x0a]));
         EvPrint (MsgUnknown (lit "FOO_BAR"))]
        (Some 42%Z) (Done (Next [])).
Proof.
  destruct (@unknown_command_is_logged_and_dropped
              (encode (lit "FOO_BAR")) (fun _ => Ret []) 0%nat (Some 42%Z)
              eq_refl eq_refl) as [H1 H2].
  split; [exact H1|].
  exact (H2 3%Z
            (Tick (Ret true) (Ret (encode (lit "FOO_BAR") ++ [x0a]))
                  (fun _ => Ret []) (Ret []) (Ret tt) (Ret tt))
            [] x46 [x4f; x4f; x5f; x42; x41; x52; x0a] []
            eq_refl eq_refl eq_refl).
Defined.

(** C10. A received line whose stripped text is empty is dropped without a
    trace: its dispatch makes no call and prints nothing, in particular no
    [Unknown command] line, [saved_input_volume] is untouched; and the first
    half of the iteration that received it does nothing but the [select] and
    the [os.read], and leaves in the buffer what followed the line. *)
Theorem blank_line_is_dropped_silently :
  forall (line : bytes) (osa : nat -> outcome str) (k : nat) (s : option Z),
    truthy (strip (decode line)) = false ->
    dispatch_lines osa k [line] s = Run [] s (Done tt)
    /\ forall fd t read_buf c chunk tail,
        t_select t = Ret true ->
        t_read t = Ret (c :: chunk) ->
        split_lines (read_buf ++ c :: chunk) = ([line], tail) ->
        read_phase fd t read_buf s =
          Run [EvSelect fd 0 (Ret true); EvRead fd 256 (Ret (c :: chunk))]
              s (Done (Next tail)).
Proof.
  intros line osa k s Hblank.
  assert (D : forall osa' k', dispatch_lines osa' k' [line] s = Run [] s (Done tt)).
  { intros osa' k'. simpl. rewrite Hblank. reflexivity. }
  split; [apply D|].
  intros fd t read_buf c chunk tail Hsel Hrd Hsplit.
  unfold read_phase. rewrite Hsel, Hrd.
  cbv [select os_read call bind try_except]. rewrite Hsplit, D. reflexivity.
Qed.

Lemma blank_line_witness :
  read_phase 3 (Tick (Ret true) (Ret [x20; x0d; x0a]) (fun _ => Ret [])
                     (Ret []) (Ret tt) (Ret tt)) [] None =
  Run [EvSelect 3 0 (Ret true); EvRead 3 256 (Ret [x20; x0d; x0a])]
      None (Done (Next [])).
Proof.
  exact (proj2 (@blank_line_is_dropped_silently
                  [x20; x0d] (fun _ => Ret []) 0%nat None eq_refl)
               3%Z
               (Tick (Ret true) (Ret [x20; x0d; x0a]) (fun _ => Ret [])
                     (Ret []) (Ret tt) (Ret tt))
               [] x20 [x0d; x0a] [] eq_refl eq_refl eq_refl).
Defined.

(** C2. Feeding the chunks of successive reads one at a time gives the same
    complete lines, in the same order, and leaves the same partial line in the
    buffer, as feeding all their bytes at once. *)
Theorem feed_chunks_is_feed_of_concat :
  forall chunks : list bytes,
    feed_chunks [] chunks = feed [] (List.concat chunks).
Proof. intros chunks. apply feed_chunks_from. reflexivity. Qed.

(* ================================================================== *)
(** * Opening the port                                                 *)
(* ================================================================== *)

(** When [os.open] raises [OSError], [open_port] returns [None]. *)
Lemma open_port_open_fails :
  forall port env status s,
    o_stty env = Ret status -> o_open env = Exc OSError ->
    value (open_port port env s) = Done None.
Proof.
  intros port env status s Hs Ho. unfold open_port. rewrite Hs, Ho.
  reflexivity.
Qed.

(** C8, at the inputs where it fails.  The exit status of [stty] is not looked
    at: whatever it is, also when it reports that the line could not be
    configured, an [os.open] that succeeds makes [open_port] return the
    descriptor. *)
Theorem open_port_ignores_stty_status :
  forall (port : str) (status fd flags : Z) (s : option Z),
    open_port port
      (Open (Ret status) (Ret fd) [] (Ret tt) (Ret flags) (Ret tt)) s =
    Run [EvSystem (lit "stty -f '" ++ port ++ lit "' 115200 raw -echo")
                  (Ret status);
         EvOpen port (Z.lor O_RDWR O_NONBLOCK) (Ret fd);
         EvSelect fd 500 (Ret false);
         EvGetfl fd (Ret flags);
         EvSetfl fd (Z.land flags (Z.lnot O_NONBLOCK)) (Ret tt)]
        s (Done (Some fd)).
Proof. reflexivity. Qed.

(* ================================================================== *)
(** * A reply that is not a number                                     *)
(* ================================================================== *)

(** C9, at an input where it fails.  The port is given on the command line
    and opens; the device sends [MIC_TOGGLE]; the host has no input device and
    [osascript] prints [missing value].  [int()] raises [ValueError], which no
    handler of [run_session] or [main] catches: the descriptor is closed and
    [main] ends with the exception in flight, without any interrupt and
    without coming to the second attempt. *)
Theorem main_dies_of_unparsable_volume :
  let attempt :=
    Attempt [] (Open (Ret 0%Z) (Ret 3%Z) [] (Ret tt) (Ret 6%Z) (Ret tt))
            [Tick (Ret true) (Ret (encode (lit "MIC_TOGGLE") ++ [x0a]))
                  (fun _ => Ret (lit "missing value" ++ [LF]))
                  (Ret (lit "Finder" ++ [LF])) (Ret tt) (Ret tt)]
            (Ret tt) (Ret tt) in
  let r := main [lit "macropad_appname.py"; lit "/dev/cu.usbmodem1234"]
                [attempt; attempt] initial_saved_input_volume in
  value r = Raised ValueError
  /\ interrupted (trace r) = false
  /\ locatings (trace r) = 1%nat
  /\ closes 3 (trace r) = 1%nat.
Proof. vm_compute. repeat split. Qed.

(* ================================================================== *)
(** * What a piece of program can do                                   *)
(* ================================================================== *)

Section Emits.
Variable Q : event -> Prop.

Lemma emits_ret : forall A (a : A), emits Q (ret a).
Proof. intros A a s. constructor. Qed.

Lemma emits_raise : forall A e, emits Q (@raise A e).
Proof. intros A e s. constructor. Qed.

Lemma emits_await : forall A, emits Q (@await A).
Proof. intros A s. constructor. Qed.

Lemma emits_get_saved : emits Q get_saved.
Proof. intros s. constructor. Qed.

Lemma emits_set_saved : forall v, emits Q (set_saved v).
Proof. intros v s. constructor. Qed.

Lemma emits_emit : forall e, Q e -> emits Q (emit e).
Proof. intros e H s. repeat constructor. exact H. Qed.

Lemma emits_call :
  forall A (ev : outcome A -> event) o, Q (ev o) -> emits Q (call ev o).
Proof. intros A ev o H s. repeat constructor. exact H. Qed.

Lemma emits_bind :
  forall A B (m : M A) (k : A -> M B),
    emits Q m -> (forall a, emits Q (k a)) -> emits Q (bind m k).
Proof.
  intros A B m k Hm Hk s. unfold bind. specialize (Hm s).
  destruct (m s) as [t1 s1 [a| |]]; simpl in *; try exact Hm.
  specialize (Hk a s1). destruct (k a s1) as [t2 s2 v2]. simpl in *.
  apply Forall_app. split; assumption.
Qed.

Lemma emits_try_except :
  forall A cls (body handler : M A),
    emits Q body -> emits Q handler -> emits Q (try_except cls body handler).
Proof.
  intros A cls body handler Hb Hh s. unfold try_except. specialize (Hb s).
  destruct (body s) as [t1 s1 [a|e|]]; simpl in *; try exact Hb.
  destruct (exn_eqb e cls); [|exact Hb].
  specialize (Hh s1). destruct (handler s1) as [t2 s2 v2]. simpl in *.
  apply Forall_app. split; assumption.
Qed.

Lemma emits_try_finally :
  forall A (body : M A) (final : M unit),
    emits Q body -> emits Q final -> emits Q (try_finally body final).
Proof.
  intros A body final Hb Hf s. unfold try_finally. specialize (Hb s).
  destruct (body s) as [t1 s1 [a|e|]]; simpl in *; try exact Hb;
    specialize (Hf s1); destruct (final s1) as [t2 s2 v2]; simpl in *;
    apply Forall_app; split; assumption.
Qed.
End Emits.

Lemma emits_weaken :
  forall (P Q : event -> Prop) A (m : M A),
    (forall e, P e -> Q e) -> emits P m -> emits Q m.
Proof.
  intros P Q A m H Hm s. eapply Forall_impl; [exact H | apply Hm].
Qed.

(** Breaks a goal [emits Q m] down along the structure of [m]. *)
Ltac emits_step :=
  first
    [ apply emits_ret | apply emits_raise | apply emits_await
    | apply emits_get_saved | apply emits_set_saved
    | apply emits_bind; [|intros ?]
    | apply emits_try_except | apply emits_try_finally
    | apply emits_emit | apply emits_call ].

Lemma emits_int_of : forall Q s, emits Q (int_of s).
Proof.
  intros Q s. unfold int_of. destruct (py_int s); emits_step.
Qed.

Lemma emits_toggle_mic : forall fd osa, emits (read_event fd) (toggle_mic osa).
Proof.
  intros fd osa. unfold toggle_mic. emits_step; [emits_step|].
  destruct a as [restore|].
  - repeat emits_step; exact I.
  - unfold subprocess_run, print.
    repeat first [apply emits_int_of | emits_step]; exact I.
Qed.

Lemma emits_handle_serial_command :
  forall fd cmd osa, emits (read_event fd) (handle_serial_command cmd osa).
Proof.
  intros fd cmd osa. unfold handle_serial_command.
  destruct (str_eqb cmd (lit "MIC_TOGGLE")).
  - apply emits_toggle_mic.
  - apply emits_emit. exact I.
Qed.

Lemma emits_dispatch_lines :
  forall fd osa lines k, emits (read_event fd) (dispatch_lines osa k lines).
Proof.
  intros fd osa lines. induction lines as [|line rest IH]; intros k; simpl.
  - emits_step.
  - emits_step; [|apply IH].
    destruct (truthy (strip (decode line))).
    + apply emits_handle_serial_command.
    + emits_step.
Qed.

Lemma emits_read_phase :
  forall fd t read_buf, emits (read_event fd) (read_phase fd t read_buf).
Proof.
  intros fd t read_buf. unfold read_phase.
  emits_step; [apply emits_call; reflexivity|].
  destruct a; [|emits_step].
  emits_step.
  - emits_step; [apply emits_call; reflexivity|].
    destruct a as [|c chunk].
    + repeat emits_step. exact I.
    + destruct (split_lines (read_buf ++ c :: chunk)) as [lines tail].
      emits_step; [apply emits_dispatch_lines | emits_step].
  - repeat emits_step. exact I.
Qed.

Lemma read_event_session : forall fd e, read_event fd e -> session_event fd e.
Proof.
  intros fd e H. destruct e; try exact H; try contradiction.
  destruct script; simpl in *; try contradiction; exact I.
Qed.

Lemma emits_send_phase :
  forall fd t last_app, emits (session_event fd) (send_phase fd t last_app).
Proof.
  intros fd t last_app. unfold send_phase.
  emits_step; [apply emits_call; exact I|].
  destruct (truthy (strip a) && negb (str_eqb (strip a) last_app)).
  - emits_step.
    + emits_step.
      * emits_step; [apply emits_call; reflexivity | emits_step].
      * repeat emits_step. exact I.
    + destruct a0; repeat emits_step; exact I.
  - repeat emits_step. exact I.
Qed.

Lemma emits_session_loop :
  forall fd ticks last_app read_buf,
    emits (session_event fd) (session_loop fd last_app read_buf ticks).
Proof.
  intros fd ticks. induction ticks as [|t rest IH]; intros last_app read_buf;
    simpl.
  - emits_step.
  - emits_step.
    + eapply emits_weaken; [apply read_event_session | apply emits_read_phase].
    + destruct a as [why|read_buf']; [emits_step|].
      emits_step; [apply emits_send_phase|].
      destruct a as [why|last_app']; [emits_step | apply IH].
Qed.

Lemma emits_run_session :
  forall fd ticks, emits (session_event fd) (run_session fd ticks).
Proof.
  intros fd ticks. unfold run_session. emits_step.
  - apply emits_session_loop.
  - emits_step.
Qed.

Lemma run_session_is_loop :
  forall fd ticks s, run_session fd ticks s = session_loop fd [] [] ticks s.
Proof.
  intros fd ticks s. unfold run_session, try_except.
  destruct (session_loop fd [] [] ticks s) as [t1 s1 [a|e|]]; try reflexivity.
  destruct e; simpl; try reflexivity.
  unfold raise. rewrite app_nil_r. reflexivity.
Qed.

(* ================================================================== *)
(** * What a session writes                                            *)
(* ================================================================== *)

Lemma written_app : forall a b, written (a ++ b) = written a ++ written b.
Proof. intros a b. apply flat_map_app. Qed.

Lemma queried_app : forall a b, queried (a ++ b) = queried a ++ queried b.
Proof. intros a b. apply flat_map_app. Qed.

Lemma writes_succeed_app :
  forall a b, writes_succeed (a ++ b) = writes_succeed a && writes_succeed b.
Proof. intros a b. apply forallb_app. Qed.

Lemma read_events_send_nothing :
  forall fd tr, Forall (read_event fd) tr -> written tr = [] /\ queried tr = [].
Proof.
  intros fd tr H. induction H as [|e tr He _ [IHw IHq]]; [split; reflexivity|].
  unfold written, queried in *. simpl. rewrite IHw, IHq.
  destruct e; try contradiction; try (split; reflexivity).
  destruct script; try contradiction. split; reflexivity.
Qed.

Lemma dedup_after_empty :
  forall l, Forall (fun x => truthy x = true) l ->
            dedup_after [] l = dedup_consecutive l.
Proof.
  intros [|x r] H; [reflexivity|]. simpl.
  inversion H as [|? ? Hx _]; subst.
  rewrite (truthy_not_empty _ Hx). reflexivity.
Qed.

Lemma session_loop_cons :
  forall fd t rest last_app read_buf,
    session_loop fd last_app read_buf (t :: rest) =
    (r <- read_phase fd t read_buf ;;
     match r with
     | Return why => ret why
     | Next read_buf' => after_read fd t last_app read_buf' rest
     end).
Proof. reflexivity. Qed.

Lemma after_read_sends_changes :
  forall fd t rest read_buf,
    (forall last_app s,
        sends_changes last_app (session_loop fd last_app read_buf rest s)) ->
    forall last_app s,
      sends_changes last_app (after_read fd t last_app read_buf rest s).
Proof.
  intros fd t rest read_buf IH last_app s. unfold after_read, send_phase.
  destruct (t_front t) as [stdout|e]; [|intros _; reflexivity].
  destruct (t_write t) as [[]|ew]; destruct (t_sleep t) as [[]|es]; run_it;
    destruct (truthy (strip stdout)) eqn:Hne;
    destruct (str_eqb (strip stdout) last_app) eqn:Hdiff;
    cbn [andb negb];
    try (destruct ew; cbn [trace saved_input_volume value app]);
    try (intros H; discriminate H);
    try specialize (IH (strip stdout) s) as IH1;
    try specialize (IH last_app s) as IH2;
    try destruct (session_loop fd (strip stdout) read_buf rest s) as [t2 s2 v2];
    try destruct (session_loop fd last_app read_buf rest s) as [t3 s3 v3];
    unfold sends_changes, written, queried, writes_succeed in *;
    cbn [trace flat_map forallb app filter andb] in *;
    rewrite ?Hne; cbn [dedup_after map]; rewrite ?Hdiff; cbn [dedup_after map];
    rewrite ?encode_line;
    try assumption; try reflexivity;
    try (intros H; f_equal; apply IH1; exact H).
Qed.

Lemma session_loop_sends_changes :
  forall fd ticks last_app read_buf s,
    sends_changes last_app (session_loop fd last_app read_buf ticks s).
Proof.
  intros fd ticks. induction ticks as [|t rest IH]; intros last_app read_buf s.
  - intros _. reflexivity.
  - rewrite session_loop_cons. unfold bind.
    pose proof (emits_read_phase fd t read_buf s) as Hr.
    destruct (read_phase fd t read_buf s) as [t1 s1 v1]. simpl in Hr.
    destruct (read_events_send_nothing Hr) as [Hw Hq].
    destruct v1 as [[why|read_buf']|e|]; unfold sends_changes; simpl;
      try (rewrite ?app_nil_r, Hw, Hq; reflexivity).
    pose proof (@after_read_sends_changes fd t rest read_buf'
                  (fun l s' => IH l read_buf' s') last_app s1) as Ha.
    destruct (after_read fd t last_app read_buf' rest s1) as [t2 s2 v2].
    unfold sends_changes in Ha. simpl in *.
    rewrite writes_succeed_app, written_app, queried_app, Hw, Hq. simpl.
    intros H. apply andb_true_iff in H. apply Ha. apply H.
Qed.

Lemma filter_truthy_all :
  forall l, Forall (fun x => truthy x = true) (filter truthy l).
Proof.
  intros l. apply Forall_forall. intros x H. apply filter_In in H. apply H.
Qed.

(** C1. In a session none of whose writes fails, the payloads written are, in
    order, the non-empty names obtained by the frontmost-application query
    with consecutive duplicates removed, each encoded and followed by one line
    feed; the first payload is the first non-empty name; and an iteration that
    writes has obtained a name that is non-empty and differs from the name
    last written. *)
Theorem run_session_sends_each_change_once :
  forall (fd : Z) (ticks : list tick_env) (s : option Z),
    writes_succeed (trace (run_session fd ticks s)) = true ->
    written (trace (run_session fd ticks s)) =
      map payload
          (dedup_consecutive
             (filter truthy (queried (trace (run_session fd ticks s)))))
    /\ hd_error (written (trace (run_session fd ticks s))) =
       option_map payload
         (hd_error (filter truthy (queried (trace (run_session fd ticks s)))))
    /\ forall t last_app s',
        written (trace (send_phase fd t last_app s')) <> [] ->
        exists stdout,
          t_front t = Ret stdout /\ strip stdout <> [] /\ strip stdout <> last_app.
Proof.
  intros fd ticks s H. rewrite run_session_is_loop in *.
  pose proof (session_loop_sends_changes fd ticks [] [] s H) as E.
  rewrite dedup_after_empty in E by apply filter_truthy_all.
  split; [exact E|]. split.
  - rewrite E.
    destruct (filter truthy (queried (trace (session_loop fd [] [] ticks s))));
      reflexivity.
  - intros t last_app s'. unfold send_phase.
    destruct (t_front t) as [stdout|e]; [|intros W; exfalso; apply W; reflexivity].
    destruct (truthy (strip stdout)) eqn:Hne;
      destruct (str_eqb (strip stdout) last_app) eqn:Hd.
    + intros W. exfalso. apply W. run_it. rewrite Hne, Hd.
      destruct (t_sleep t) as [[]|e]; reflexivity.
    + intros _. exists stdout. apply str_eqb_neq in Hd.
      repeat split; [|exact Hd].
      intros E0. rewrite E0 in Hne. discriminate.
    + intros W. exfalso. apply W. run_it. rewrite Hne.
      destruct (t_sleep t) as [[]|e]; reflexivity.
    + intros W. exfalso. apply W. run_it. rewrite Hne.
      destruct (t_sleep t) as [[]|e]; reflexivity.
Qed.

Lemma run_session_sends_witness :
  written
    (trace (run_session 3
              [Tick (Ret false) (Ret []) (fun _ => Ret [])
                    (Ret (lit "Finder" ++ [LF])) (Ret tt) (Ret tt);
               Tick (Ret false) (Ret []) (fun _ => Ret [])
                    (Ret (lit "Finder" ++ [LF])) (Ret tt) (Ret tt);
               Tick (Ret false) (Ret []) (fun _ => Ret [])
                    (Ret []) (Ret tt) (Ret tt);
               Tick (Ret false) (Ret []) (fun _ => Ret [])
                    (Ret (lit "Safari" ++ [LF])) (Ret tt) (Ret tt)]
              None)) =
  [payload (lit "Finder"); payload (lit "Safari")].
Proof.
  exact (proj1 (@run_session_sends_each_change_once 3%Z
                  [Tick (Ret false) (Ret []) (fun _ => Ret [])
                        (Ret (lit "Finder" ++ [LF])) (Ret tt) (Ret tt);
                   Tick (Ret false) (Ret []) (fun _ => Ret [])
                        (Ret (lit "Finder" ++ [LF])) (Ret tt) (Ret tt);
                   Tick (Ret false) (Ret []) (fun _ => Ret [])
                        (Ret []) (Ret tt) (Ret tt);
                   Tick (Ret false) (Ret []) (fun _ => Ret [])
                        (Ret (lit "Safari" ++ [LF])) (Ret tt) (Ret tt)]
                  None eq_refl)).
Defined.

(* ================================================================== *)
(** * End of file, and the closing of the descriptor                   *)
(* ================================================================== *)

Lemma closes_app :
  forall fd a b, closes fd (a ++ b) = (closes fd a + closes fd b)%nat.
Proof.
  intros fd a b. unfold closes. rewrite filter_app. apply length_app.
Qed.

Lemma closes_one : forall fd o, closes fd [EvClose fd o] = 1%nat.
Proof. intros fd o. unfold closes. simpl. rewrite Z.eqb_refl. reflexivity. Qed.

Lemma session_events_close_nothing :
  forall fd tr, Forall (session_event fd) tr -> closes fd tr = 0%nat.
Proof.
  intros fd tr H. induction H as [|e tr He _ IH]; [reflexivity|].
  unfold closes in *. simpl. destruct e; try exact IH; contradiction.
Qed.

Lemma session_loop_eof :
  forall fd t rest last_app read_buf s,
    t_select t = Ret true -> t_read t = Ret [] ->
    session_loop fd last_app read_buf (t :: rest) s =
    Run [EvSelect fd 0 (Ret true); EvRead fd 256 (Ret []); EvPrint MsgEof]
        s (Done Eof).
Proof.
  intros fd t rest last_app read_buf s Hsel Hrd.
  rewrite session_loop_cons. unfold read_phase. rewrite Hsel, Hrd.
  reflexivity.
Qed.

(** The [try] statement of [main] around a session that has ended: the calls
    of the session, the [Stopped.] line when the session was interrupted, and
    one [os.close]. *)
Lemma guarded_session_trace :
  forall fd a s,
    value (run_session fd (a_ticks a) s) <> Running ->
    trace (guarded_session fd a s) =
    trace (run_session fd (a_ticks a) s)
    ++ match value (run_session fd (a_ticks a) s) with
       | Raised KeyboardInterrupt => [EvPrint MsgStopped]
       | _ => []
       end
    ++ [EvClose fd (a_close a)].
Proof.
  intros fd a s Hend. unfold guarded_session, try_finally, try_except, bind.
  destruct (run_session fd (a_ticks a) s) as [t1 s1 [why|e|]]; simpl in *;
    [| |contradiction].
  - destruct (a_close a) as [[]|[]]; simpl; rewrite ?app_nil_r; reflexivity.
  - destruct e; destruct (a_close a) as [[]|[]]; simpl;
      rewrite ?app_nil_r, <- ?app_assoc; reflexivity.
Qed.

(** C6. When [select] reports the descriptor readable and [os.read] returns
    no byte, the iteration prints the end-of-file line and [run_session]
    returns at once, whatever the locals and whatever the environment had in
    store: no further [select], [os.read] or [os.write] follows.  Around a
    session that starts so, the [try] statement of [main] adds one [os.close]
    and nothing else.  And however a session ends (one of the three [return]
    statements, the interrupt, any other exception), the session itself closes
    nothing and the [try] statement closes the descriptor exactly once, after
    the last call of the session. *)
Theorem eof_returns_and_descriptor_closed_once :
  forall (fd : Z) (t : tick_env) (rest : list tick_env)
         (last_app : str) (read_buf : bytes) (s : option Z),
    t_select t = Ret true -> t_read t = Ret [] ->
    session_loop fd last_app read_buf (t :: rest) s =
      Run [EvSelect fd 0 (Ret true); EvRead fd 256 (Ret []); EvPrint MsgEof]
          s (Done Eof)
    /\ (forall a, a_ticks a = t :: rest ->
          trace (guarded_session fd a s) =
            [EvSelect fd 0 (Ret true); EvRead fd 256 (Ret []); EvPrint MsgEof;
             EvClose fd (a_close a)])
    /\ (forall a s',
          value (run_session fd (a_ticks a) s') <> Running ->
          closes fd (trace (run_session fd (a_ticks a) s')) = 0%nat
          /\ closes fd (trace (guarded_session fd a s')) = 1%nat
          /\ exists stopped,
              trace (guarded_session fd a s') =
              trace (run_session fd (a_ticks a) s') ++ stopped
              ++ [EvClose fd (a_close a)]
              /\ closes fd stopped = 0%nat).
Proof.
  intros fd t rest last_app read_buf s Hsel Hrd.
  split; [apply session_loop_eof; assumption|]. split.
  - intros a Ha.
    assert (E : run_session fd (a_ticks a) s =
                Run [EvSelect fd 0 (Ret true); EvRead fd 256 (Ret []);
                     EvPrint MsgEof] s (Done Eof)).
    { rewrite run_session_is_loop, Ha. apply session_loop_eof; assumption. }
    rewrite guarded_session_trace; rewrite E; [reflexivity | discriminate].
  - intros a s' Hend.
    pose proof (session_events_close_nothing
                  (emits_run_session fd (a_ticks a) s')) as H0.
    split; [exact H0|].
    rewrite guarded_session_trace by exact Hend.
    split.
    + rewrite !closes_app, H0, closes_one.
      destruct (value (run_session fd (a_ticks a) s')) as [why|[]|];
        reflexivity.
    + eexists. split; [reflexivity|].
      destruct (value (run_session fd (a_ticks a) s')) as [why|[]|];
        reflexivity.
Qed.

Lemma eof_witness :
  session_loop 3 (lit "Finder") [x4d; x49]
    [Tick (Ret true) (Ret []) (fun _ => Ret []) (Ret (lit "Safari"))
          (Ret tt) (Ret tt)] (Some 42%Z) =
    Run [EvSelect 3 0 (Ret true); EvRead 3 256 (Ret []); EvPrint MsgEof]
        (Some 42%Z) (Done Eof)
  /\ closes 3
       (trace (guarded_session 3
                 (Attempt [] (Open (Ret 0%Z) (Ret 3%Z) [] (Ret tt) (Ret 6%Z)
                                   (Ret tt))
                          [Tick (Ret false) (Ret []) (fun _ => Ret [])
                                (Ret (lit "Safari")) (Exc OSError) (Ret tt)]
                          (Ret tt) (Ret tt))
                 None)) = 1%nat.
Proof.
  destruct (@eof_returns_and_descriptor_closed_once 3%Z
              (Tick (Ret true) (Ret []) (fun _ => Ret [])
                    (Ret (lit "Safari")) (Ret tt) (Ret tt))
              [] (lit "Finder") [x4d; x49] (Some 42%Z) eq_refl eq_refl)
    as (H1 & _ & H3).
  split; [exact H1|].
  refine (proj1 (proj2 (H3 _ None _))). simpl. discriminate.
Defined.

(* ================================================================== *)
(** * The retry loop                                                   *)
(* ================================================================== *)

Lemma session_event_calm : forall fd e, session_event fd e -> calm e.
Proof.
  intros fd e H. destruct e; try exact I; try contradiction.
  simpl in *. destruct secs as [|[]|]; try contradiction. discriminate.
Qed.

Lemma open_event_calm : forall e, open_event e -> calm e.
Proof. intros e H. destruct e; try exact I; contradiction. Qed.

Lemma emits_flush_startup :
  forall fd reads idle, emits open_event (flush_startup fd reads idle).
Proof.
  intros fd reads idle. induction reads as [|r rest IH]; simpl.
  - emits_step; [apply emits_call; exact I | emits_step].
  - emits_step; [apply emits_call; exact I|].
    emits_step; [apply emits_call; exact I | apply IH].
Qed.

Lemma emits_open_port : forall port env, emits open_event (open_port port env).
Proof.
  intros port env. unfold open_port. emits_step.
  - emits_step; [apply emits_call; exact I|].
    emits_step; [apply emits_call; exact I|].
    emits_step; [apply emits_flush_startup|].
    emits_step; [apply emits_call; exact I|].
    emits_step; [apply emits_call; exact I | emits_step].
  - repeat emits_step. exact I.
Qed.

Lemma emits_guarded_session : forall fd a, emits calm (guarded_session fd a).
Proof.
  intros fd a. unfold guarded_session. emits_step.
  - emits_step.
    + emits_step; [|emits_step].
      eapply emits_weaken; [apply session_event_calm | apply emits_run_session].
    + repeat emits_step. exact I.
  - emits_step; [apply emits_call; exact I | emits_step].
Qed.

Lemma calm_counts :
  forall tr, Forall calm tr -> cooldowns tr = 0%nat /\ locatings tr = 0%nat.
Proof.
  intros tr H. induction H as [|e tr He _ [IHc IHl]]; [split; reflexivity|].
  unfold cooldowns, locatings in *. simpl.
  destruct e; try (split; assumption); try contradiction.
  simpl in He. destruct r; [|split; assumption].
  destruct (Z.eqb_spec secs RETRY_INTERVAL); [contradiction | split; assumption].
Qed.

Lemma cooldowns_app :
  forall a b, cooldowns (a ++ b) = (cooldowns a + cooldowns b)%nat.
Proof. intros a b. unfold cooldowns. rewrite filter_app. apply length_app. Qed.

Lemma locatings_app :
  forall a b, locatings (a ++ b) = (locatings a + locatings b)%nat.
Proof. intros a b. unfold locatings. rewrite filter_app. apply length_app. Qed.

Lemma find_port_run :
  forall argv found s,
    exists port tr,
      find_port argv found s = Run tr s (Done port) /\ Forall calm tr.
Proof.
  intros argv found s. unfold find_port.
  destruct (nth_error argv 1) as [port|].
  - exists (Some port), []. split; [reflexivity | constructor].
  - run_it. destruct (sorted found) as [|first rest].
    + exists None, [EvGlob (lit "/dev/cu.usbmodem*") found].
      split; [reflexivity | repeat constructor].
    + exists (Some first), [EvGlob (lit "/dev/cu.usbmodem*") found].
      split; [reflexivity | repeat constructor].
Qed.

Lemma main_body_unfold :
  forall argv a,
    main_body argv a =
    (port <- find_port argv (a_glob a) ;;
     emit (EvFindPort port) ;;
     after_find_port a port).
Proof. reflexivity. Qed.

Lemma cools_bind :
  forall A (m : M A) (k : A -> M loop_ctl),
    emits calm m -> (forall a s, cools (k a s)) -> forall s, cools (bind m k s).
Proof.
  intros A m k Hm Hk s. unfold bind. specialize (Hm s).
  destruct (m s) as [t1 s1 [a| |]]; simpl in Hm;
    destruct (calm_counts Hm) as [Hc _]; try exact Hc.
  specialize (Hk a s1). destruct (k a s1) as [t2 s2 v2].
  unfold cools, goes_again in *. simpl in *.
  rewrite cooldowns_app, Hc. exact Hk.
Qed.

Lemma cools_cooldown :
  forall o why s,
    cools ((sleep RETRY_INTERVAL o ;; ret (Again why)) s).
Proof. intros [[]|e] why s; reflexivity. Qed.

Lemma cools_after_find_port : forall a port s, cools (after_find_port a port s).
Proof.
  intros a port. unfold after_find_port. destruct port as [port|].
  - apply cools_bind; [apply emits_emit; exact I|]. intros _.
    apply cools_bind.
    { eapply emits_weaken; [apply open_event_calm | apply emits_open_port]. }
    intros [fd|]; [|apply cools_cooldown].
    apply cools_bind; [apply emits_emit; exact I|]. intros _.
    apply cools_bind; [apply emits_guarded_session|].
    intros [why|]; [|reflexivity].
    apply cools_bind; [apply emits_emit; exact I|]. intros _.
    apply cools_cooldown.
  - apply cools_bind; [apply emits_emit; exact I|]. intros _.
    apply cools_cooldown.
Qed.

Lemma unlocated_counts :
  forall tr, Forall unlocated tr -> locatings tr = 0%nat.
Proof.
  intros tr H. induction H as [|e tr He _ IH]; [reflexivity|].
  unfold locatings in *. simpl. destruct e; try exact IH. contradiction.
Qed.

Lemma calm_unlocated : forall e, calm e -> unlocated e.
Proof. intros e H. destruct e; try exact I. contradiction. Qed.

Lemma emits_after_find_port :
  forall a port, emits unlocated (after_find_port a port).
Proof.
  intros a port. unfold after_find_port.
  destruct port as [port|]; [|repeat emits_step; exact I].
  apply emits_bind; [apply emits_emit; exact I | intros _].
  apply emits_bind; [|intros fd].
  { eapply emits_weaken; [|apply emits_open_port].
    intros e H. apply calm_unlocated, open_event_calm, H. }
  destruct fd as [fd|]; [|repeat emits_step; exact I].
  apply emits_bind; [apply emits_emit; exact I | intros _].
  apply emits_bind; [|intros c].
  { eapply emits_weaken; [apply calm_unlocated | apply emits_guarded_session]. }
  destruct c; repeat emits_step; exact I.
Qed.

(** One iteration of [main] looks for the port once, and completes one wait of
    [RETRY_INTERVAL] seconds when it ends in a failure, none otherwise. *)
Lemma main_body_counts :
  forall argv a s,
    locatings (trace (main_body argv a s)) = 1%nat
    /\ cools (main_body argv a s).
Proof.
  intros argv a s. rewrite main_body_unfold.
  destruct (find_port_run argv (a_glob a) s) as (port & tg & E & Hg).
  split.
  - erewrite bind_Done by exact E. cbn [trace]. unfold bind, emit.
    pose proof (emits_after_find_port a port s) as Hu.
    destruct (after_find_port a port s) as [t2 s2 v2]. simpl in *.
    change (EvFindPort port :: t2) with ([EvFindPort port] ++ t2).
    rewrite !locatings_app, (unlocated_counts Hu).
    destruct (calm_counts Hg) as [_ ->]. reflexivity.
  - apply cools_bind.
    + intros s'. destruct (find_port_run argv (a_glob a) s') as (p & t & E' & H).
      rewrite E'. exact H.
    + intros p s'. unfold bind, emit.
      pose proof (cools_after_find_port a p s') as Hc.
      destruct (after_find_port a p s') as [t2 s2 v2]. exact Hc.
Qed.

Lemma ends_cooled_bind :
  forall A (m : M A) (k : A -> M loop_ctl),
    (forall a s, ends_cooled (k a s)) -> forall s, ends_cooled (bind m k s).
Proof.
  intros A m k Hk s why. unfold bind.
  destruct (m s) as [t1 s1 [a| |]]; simpl; try discriminate.
  specialize (Hk a s1 why). destruct (k a s1) as [t2 s2 v2]. simpl in *.
  intros H. destruct (Hk H) as [pre ->]. exists (t1 ++ pre).
  apply app_assoc.
Qed.

Lemma ends_cooled_cooldown :
  forall o why s,
    ends_cooled ((sleep RETRY_INTERVAL o ;; ret (Again why)) s).
Proof.
  intros [[]|e] why s w; simpl; [|discriminate].
  intros _. exists []. reflexivity.
Qed.

Lemma ends_cooled_main_body : forall argv a s, ends_cooled (main_body argv a s).
Proof.
  intros argv a. rewrite main_body_unfold.
  apply ends_cooled_bind. intros port.
  apply ends_cooled_bind. intros _.
  unfold after_find_port. destruct port as [port|].
  - apply ends_cooled_bind. intros _.
    apply ends_cooled_bind. intros [fd|]; [|apply ends_cooled_cooldown].
    apply ends_cooled_bind. intros _.
    apply ends_cooled_bind. intros [why|].
    + apply ends_cooled_bind. intros _. apply ends_cooled_cooldown.
    + intros s why. discriminate.
  - apply ends_cooled_bind. intros _. apply ends_cooled_cooldown.
Qed.

Lemma main_cons :
  forall argv a rest,
    main argv (a :: rest) =
    (c <- main_body argv a ;;
     match c with
     | Again _ => main argv rest
     | Break => ret tt
     end).
Proof. reflexivity. Qed.

Lemma main_single_trace :
  forall argv a s, trace (main argv [a] s) = trace (main_body argv a s).
Proof.
  intros argv a s. rewrite main_cons. unfold bind.
  destruct (main_body argv a s) as [t1 s1 [[why|]| |]]; simpl;
    rewrite ?app_nil_r; reflexivity.
Qed.

Lemma goes_again_inv :
  forall r, goes_again r = true -> exists why, value r = Done (Again why).
Proof.
  intros [t s [[why|]|e|]]; simpl; try discriminate.
  intros _. exists why. reflexivity.
Qed.

(** After iterations that all end in a failure, [main] is at the head of its
    loop, having looked for the port and waited once per iteration, and goes
    on with what the environment has next. *)
Lemma main_all_fail :
  forall argv fails s,
    all_fail argv fails s = true ->
    value (main argv fails s) = Running
    /\ cooldowns (trace (main argv fails s)) = List.length fails
    /\ locatings (trace (main argv fails s)) = List.length fails
    /\ forall more,
        trace (main argv (fails ++ more) s) =
        trace (main argv fails s)
        ++ trace (main argv more (saved_input_volume (main argv fails s))).
Proof.
  intros argv fails. induction fails as [|a rest IH]; intros s H.
  - repeat split. 
  - simpl in H. apply andb_true_iff in H. destruct H as [Ha Hrest].
    destruct (main_body_counts argv a s) as [Hl Hc].
    unfold cools in Hc. rewrite Ha in Hc.
    destruct (goes_again_inv _ Ha) as [why Hv].
    destruct (IH _ Hrest) as (Hrun & Hcool & Hloc & Hmore).
    assert (U : forall l,
               main argv (a :: l) s =
               Run (trace (main_body argv a s)
                    ++ trace (main argv l (saved_input_volume (main_body argv a s))))
                   (saved_input_volume
                      (main argv l (saved_input_volume (main_body argv a s))))
                   (value (main argv l (saved_input_volume (main_body argv a s))))).
    { intros l. rewrite main_cons.
      rewrite (@bind_Done _ _ (main_body argv a)
                 (fun c => match c with
                           | Again _ => main argv l
                           | Break => ret tt
                           end)
                 s (trace (main_body argv a s))
                 (saved_input_volume (main_body argv a s)) (Again why));
        [reflexivity|].
      rewrite <- Hv. apply run_eta. }
    rewrite U. cbn [trace value saved_input_volume].
    rewrite cooldowns_app, locatings_app, Hl, Hc, Hcool, Hloc.
    repeat split; try assumption.
    intros more. rewrite <- app_comm_cons, U. cbn [trace].
    rewrite Hmore, app_assoc. reflexivity.
Qed.

(* ================================================================== *)
(** * Leaving the loop                                                 *)
(* ================================================================== *)

Lemma interrupted_app :
  forall a b, interrupted (a ++ b) = interrupted a || interrupted b.
Proof. intros a b. apply existsb_app. Qed.

Lemma honest_done : forall A (m : M A),
    (forall s, value (m s) <> Raised KeyboardInterrupt) -> honest m.
Proof. intros A m H s E. destruct (H s E). Qed.

Lemma honest_call :
  forall A (ev : outcome A -> event) o,
    interrupted [ev (Exc KeyboardInterrupt)] = true -> honest (call ev o).
Proof.
  intros A ev o H s. unfold call. simpl. destruct o as [a|e]; [discriminate|].
  intros E. injection E as ->. exact H.
Qed.

Lemma honest_bind :
  forall A B (m : M A) (k : A -> M B),
    honest m -> (forall a, honest (k a)) -> honest (bind m k).
Proof.
  intros A B m k Hm Hk s. unfold bind. specialize (Hm s).
  destruct (m s) as [t1 s1 [a|e|]]; simpl in *.
  - specialize (Hk a s1). destruct (k a s1) as [t2 s2 v2]. simpl in *.
    intros E. rewrite interrupted_app, (Hk E). apply orb_true_r.
  - intros E. injection E as ->. apply Hm. reflexivity.
  - discriminate.
Qed.

Lemma honest_try_except :
  forall A cls (body handler : M A),
    honest body -> honest handler -> honest (try_except cls body handler).
Proof.
  intros A cls body handler Hb Hh s. unfold try_except. specialize (Hb s).
  destruct (body s) as [t1 s1 [a|e|]]; simpl in *; try assumption.
  destruct (exn_eqb e cls); [|exact Hb].
  specialize (Hh s1). destruct (handler s1) as [t2 s2 v2]. simpl in *.
  intros E. rewrite interrupted_app, (Hh E). apply orb_true_r.
Qed.

Ltac honest_step :=
  first
    [ apply honest_bind; [|intros ?]
    | apply honest_try_except
    | apply honest_call; reflexivity
    | apply honest_done; intros ?; discriminate ].

Lemma honest_toggle_mic : forall osa, honest (toggle_mic osa).
Proof.
  intros osa. unfold toggle_mic, subprocess_run, subprocess_Popen, print.
  apply honest_bind; [honest_step | intros saved].
  destruct saved as [restore|].
  - repeat honest_step.
  - apply honest_bind; [honest_step | intros stdout].
    apply honest_bind; [|intros v; repeat honest_step].
    unfold int_of. destruct (py_int (strip stdout)); honest_step.
Qed.

Lemma honest_dispatch_lines :
  forall osa lines k, honest (dispatch_lines osa k lines).
Proof.
  intros osa lines. induction lines as [|line rest IH]; intros k; simpl.
  - honest_step.
  - apply honest_bind; [|intros _; apply IH].
    destruct (truthy (strip (decode line))); [|honest_step].
    unfold handle_serial_command.
    destruct (str_eqb _ _); [apply honest_toggle_mic | honest_step].
Qed.

Lemma honest_read_phase : forall fd t read_buf, honest (read_phase fd t read_buf).
Proof.
  intros fd t read_buf. unfold read_phase, select, os_read, print.
  apply honest_bind; [honest_step | intros readable].
  destruct readable; [|honest_step].
  apply honest_try_except; [|repeat honest_step].
  apply honest_bind; [honest_step | intros chunk].
  destruct chunk as [|c chunk]; [repeat honest_step|].
  destruct (split_lines (read_buf ++ c :: chunk)) as [lines tail].
  apply honest_bind; [apply honest_dispatch_lines | intros _; honest_step].
Qed.

Lemma honest_send_phase : forall fd t last_app, honest (send_phase fd t last_app).
Proof.
  intros fd t last_app. unfold send_phase, subprocess_run, os_write, sleep, print.
  apply honest_bind; [honest_step | intros stdout]. cbv zeta.
  destruct (truthy (strip stdout) && negb (str_eqb (strip stdout) last_app)).
  - apply honest_bind; [|intros sent; destruct sent; repeat honest_step].
    apply honest_try_except; repeat honest_step.
  - repeat honest_step.
Qed.

Lemma honest_session_loop :
  forall fd ticks last_app read_buf,
    honest (session_loop fd last_app read_buf ticks).
Proof.
  intros fd ticks. induction ticks as [|t rest IH]; intros last_app read_buf;
    simpl.
  - honest_step.
  - apply honest_bind; [apply honest_read_phase | intros r].
    destruct r as [why|read_buf']; [honest_step|].
    apply honest_bind; [apply honest_send_phase | intros x].
    destruct x as [why|last_app']; [honest_step | apply IH].
Qed.

(** The [break] of [main] is reached only from the handler of the interrupt,
    and the interrupt comes from a call of the session. *)
Lemma guarded_session_break :
  forall fd a s,
    value (guarded_session fd a s) = Done Break ->
    interrupted (trace (guarded_session fd a s)) = true.
Proof.
  intros fd a s.
  pose proof (@honest_session_loop fd (a_ticks a) [] [] s) as Hs.
  rewrite <- run_session_is_loop in Hs.
  unfold guarded_session, try_finally, try_except, bind, os_close, call,
    print, emit, ret.
  destruct (run_session fd (a_ticks a) s) as [t1 s1 [why|e|]]; simpl in *.
  - destruct (a_close a) as [[]|[]]; simpl; discriminate.
  - destruct e; destruct (a_close a) as [[]|[]]; simpl; try discriminate;
      intros _; rewrite !interrupted_app, (Hs eq_refl); reflexivity.
  - discriminate.
Qed.

Lemma breaks_interrupted_bind :
  forall A (m : M A) (k : A -> M loop_ctl),
    (forall a s, breaks_interrupted (k a s)) ->
    forall s, breaks_interrupted (bind m k s).
Proof.
  intros A m k Hk s. unfold bind, breaks_interrupted.
  destruct (m s) as [t1 s1 [a| |]]; simpl; try discriminate.
  specialize (Hk a s1). destruct (k a s1) as [t2 s2 v2].
  unfold breaks_interrupted in Hk. simpl in *.
  intros E. rewrite interrupted_app, (Hk E). apply orb_true_r.
Qed.

Lemma breaks_interrupted_cooldown :
  forall o why s,
    breaks_interrupted ((sleep RETRY_INTERVAL o ;; ret (Again why)) s).
Proof. intros [[]|e] why s; discriminate. Qed.

Lemma main_body_break :
  forall argv a s, breaks_interrupted (main_body argv a s).
Proof.
  intros argv a. rewrite main_body_unfold.
  apply breaks_interrupted_bind. intros port.
  apply breaks_interrupted_bind. intros _.
  unfold after_find_port. destruct port as [port|].
  - apply breaks_interrupted_bind. intros _.
    apply breaks_interrupted_bind.
    intros [fd|]; [|apply breaks_interrupted_cooldown].
    apply breaks_interrupted_bind. intros _ s.
    unfold bind at 1, breaks_interrupted.
    pose proof (@guarded_session_break fd a s) as Hg.
    destruct (guarded_session fd a s) as [t2 s2 [[why|]| |]]; simpl in *;
      try discriminate.
    + destruct (a_sleep a) as [[]|e]; discriminate.
    + intros _. rewrite app_nil_r. apply Hg. reflexivity.
  - apply breaks_interrupted_bind. intros _.
    apply breaks_interrupted_cooldown.
Qed.

Lemma main_returns_interrupted :
  forall argv attempts s,
    value (main argv attempts s) = Done tt ->
    interrupted (trace (main argv attempts s)) = true.
Proof.
  intros argv attempts. induction attempts as [|a rest IH]; intros s.
  - discriminate.
  - rewrite main_cons. unfold bind.
    pose proof (@main_body_break argv a s) as Hb.
    destruct (main_body argv a s) as [t1 s1 [[why|]| |]]; simpl in *;
      try discriminate.
    + specialize (IH s1). destruct (main argv rest s1) as [t2 s2 v2].
      simpl in *. intros E. rewrite interrupted_app, (IH E).
      apply orb_true_r.
    + intros _. rewrite app_nil_r. apply Hb. reflexivity.
Qed.

(* ================================================================== *)
(** * The three kinds of failure, and the claim on the retry loop      *)
(* ================================================================== *)

Lemma value_bind_Done :
  forall A B (m : M A) (k : A -> M B) s a,
    value (m s) = Done a ->
    value (bind m k s) = value (k a (saved_input_volume (m s))).
Proof.
  intros A B m k s a H. unfold bind.
  destruct (m s) as [t1 s1 v1]. simpl in *. subst v1.
  destruct (k a s1). reflexivity.
Qed.

(** No port on the command line and no device file: the iteration ends in
    [NotFound]. *)
Lemma not_found_goes_again :
  forall argv a s,
    nth_error argv 1 = None -> sorted (a_glob a) = [] -> a_sleep a = Ret tt ->
    value (main_body argv a s) = Done (Again NotFound).
Proof.
  intros argv a s Hargv Hglob Hsleep.
  unfold main_body, after_find_port, find_port.
  rewrite Hargv. run_it. rewrite Hglob, Hsleep. reflexivity.
Qed.

(** [open_port] returns [None]: the iteration ends in [OpenError]. *)
Lemma open_error_goes_again :
  forall argv a s port,
    value (find_port argv (a_glob a) s) = Done (Some port) ->
    value (open_port port (a_open a) s) = Done None ->
    a_sleep a = Ret tt ->
    value (main_body argv a s) = Done (Again OpenError).
Proof.
  intros argv a s port Hfind Hopen Hsleep. rewrite main_body_unfold.
  rewrite (value_bind_Done _ _ _ Hfind).
  destruct (find_port_run argv (a_glob a) s) as (p & tg & E & _).
  rewrite E. cbn [saved_input_volume].
  unfold after_find_port, print.
  rewrite (@value_bind_Done _ _ (emit (EvFindPort (Some port))) _ s tt eq_refl).
  cbn [saved_input_volume emit].
  rewrite (@value_bind_Done _ _ (emit (EvPrint (MsgConnecting port))) _ s tt eq_refl).
  cbn [saved_input_volume emit].
  rewrite (value_bind_Done _ _ _ Hopen). rewrite Hsleep. reflexivity.
Qed.

(** The session returns: the iteration ends in that [DisconnectReason]. *)
Lemma disconnect_goes_again :
  forall argv a s port fd why,
    value (find_port argv (a_glob a) s) = Done (Some port) ->
    value (open_port port (a_open a) s) = Done (Some fd) ->
    value (run_session fd (a_ticks a)
             (saved_input_volume (open_port port (a_open a) s))) = Done why ->
    a_close a = Ret tt \/ a_close a = Exc OSError ->
    a_sleep a = Ret tt ->
    value (main_body argv a s) = Done (Again (Disconnect why)).
Proof.
  intros argv a s port fd why Hfind Hopen Hrun Hclose Hsleep.
  rewrite main_body_unfold.
  rewrite (value_bind_Done _ _ _ Hfind).
  destruct (find_port_run argv (a_glob a) s) as (p & tg & E & _).
  rewrite E. cbn [saved_input_volume].
  unfold after_find_port, print.
  rewrite (@value_bind_Done _ _ (emit (EvFindPort (Some port))) _ s tt eq_refl).
  cbn [saved_input_volume emit].
  rewrite (@value_bind_Done _ _ (emit (EvPrint (MsgConnecting port))) _ s tt eq_refl).
  cbn [saved_input_volume emit].
  rewrite (value_bind_Done _ _ _ Hopen).
  set (s1 := saved_input_volume (open_port port (a_open a) s)) in *.
  rewrite (@value_bind_Done _ _ (emit (EvPrint (MsgConnected port))) _ s1 tt eq_refl).
  cbn [saved_input_volume emit].
  assert (G : value (guarded_session fd a s1) = Done (Again (Disconnect why))).
  { unfold guarded_session, try_finally, try_except, bind, os_close, call, ret.
    destruct (run_session fd (a_ticks a) s1) as [t1 s2 v1]. simpl in Hrun.
    subst v1. destruct Hclose as [-> | ->]; reflexivity. }
  rewrite (value_bind_Done _ _ _ G). rewrite Hsleep. reflexivity.
Qed.

(** X21. Over any run of [main] whose iterations all end in a failure (no
    port found, [open_port] returning [None], or the session returning with
    any [DisconnectReason]) with the wait completed: [main] has not returned
    and no exception has left it; it has completed exactly one wait of
    [RETRY_INTERVAL = 5] seconds per failure; and with one more iteration,
    whatever it does, the port has been looked for once more than there were
    failures.  Every iteration that ends in a failure completes exactly one
    such wait, as its last call.  And [main] returns, that is leaves its loop
    by [break], only when a call was cut short by the interrupt; this says
    nothing of the runs that an exception ends. *)
Theorem supervisor_retries_after_every_failure :
  forall (argv : list str) (fails : list attempt_env) (s : option Z),
    all_fail argv fails s = true ->
    value (main argv fails s) = Running
    /\ cooldowns (trace (main argv fails s)) = List.length fails
    /\ (forall a,
          locatings (trace (main argv (fails ++ [a]) s)) = S (List.length fails))
    /\ (forall a s' why,
          value (main_body argv a s') = Done (Again why) ->
          cooldowns (trace (main_body argv a s')) = 1%nat
          /\ exists pre,
              trace (main_body argv a s') =
              pre ++ [EvSleep RETRY_INTERVAL (Ret tt)])
    /\ (forall attempts s',
          value (main argv attempts s') = Done tt ->
          interrupted (trace (main argv attempts s')) = true).
Proof.
  intros argv fails s H.
  destruct (main_all_fail argv fails s H) as (Hrun & Hcool & Hloc & Hmore).
  split; [exact Hrun|]. split; [exact Hcool|]. split; [|split].
  - intros a. rewrite Hmore, locatings_app, Hloc, main_single_trace.
    destruct (main_body_counts argv a (saved_input_volume (main argv fails s)))
      as [-> _].
    apply Nat.add_1_r.
  - intros a s' why Hv. split.
    + destruct (main_body_counts argv a s') as [_ Hc]. unfold cools in Hc.
      unfold goes_again in Hc. rewrite Hv in Hc. exact Hc.
    + exact (ends_cooled_main_body argv a s' Hv).
  - apply main_returns_interrupted.
Qed.

Lemma supervisor_retries_witness :
  cooldowns
    (trace (main [lit "macropad_appname.py"]
                 [Attempt [] (Open (Ret 0%Z) (Ret 3%Z) [] (Ret tt) (Ret 6%Z)
                                   (Ret tt))
                          [] (Ret tt) (Ret tt);
                  Attempt [lit "/dev/cu.usbmodem1"]
                          (Open (Ret 256%Z) (Exc OSError) [] (Ret tt)
                                (Ret 6%Z) (Ret tt))
                          [] (Ret tt) (Ret tt);
                  Attempt [lit "/dev/cu.usbmodem1"]
                          (Open (Ret 0%Z) (Ret 3%Z) [] (Ret tt) (Ret 6%Z)
                                (Ret tt))
                          [Tick (Ret true) (Ret []) (fun _ => Ret [])
                                (Ret []) (Ret tt) (Ret tt)]
                          (Ret tt) (Ret tt)]
                 None)) = 3%nat.
Proof.
  exact (proj1 (proj2
    (@supervisor_retries_after_every_failure
       [lit "macropad_appname.py"]
       [Attempt [] (Open (Ret 0%Z) (Ret 3%Z) [] (Ret tt) (Ret 6%Z) (Ret tt))
                [] (Ret tt) (Ret tt);
        Attempt [lit "/dev/cu.usbmodem1"]
                (Open (Ret 256%Z) (Exc OSError) [] (Ret tt) (Ret 6%Z) (Ret tt))
                [] (Ret tt) (Ret tt);
        Attempt [lit "/dev/cu.usbmodem1"]
                (Open (Ret 0%Z) (Ret 3%Z) [] (Ret tt) (Ret 6%Z) (Ret tt))
                [Tick (Ret true) (Ret []) (fun _ => Ret []) (Ret []) (Ret tt)
                      (Ret tt)]
                (Ret tt) (Ret tt)]
       None eq_refl))).
Defined.

(** C7, at inputs where it fails.  After two failures of the listed kinds (no
    port found, then an end of file), each followed by its wait of five
    seconds, the third iteration opens the port and the loop of [main] ends
    without any interrupt: with [ValueError] when the device sends
    [MIC_TOGGLE] and [osascript] prints [missing value], and with [OSError]
    when [osascript] cannot be started for the frontmost-application query.
    Neither exception has a handler in [run_session] or [main]; the fourth
    iteration is never reached. *)
Theorem main_stops_retrying_on_uncaught_exception :
  let port_open := Open (Ret 0%Z) (Ret 3%Z) [] (Ret tt) (Ret 6%Z) (Ret tt) in
  let not_found := Attempt [] port_open [] (Ret tt) (Ret tt) in
  let end_of_file :=
    Attempt [lit "/dev/cu.usbmodem1"] port_open
            [Tick (Ret true) (Ret []) (fun _ => Ret []) (Ret []) (Ret tt)
                  (Ret tt)]
            (Ret tt) (Ret tt) in
  let unparsable_volume :=
    Attempt [lit "/dev/cu.usbmodem1"] port_open
            [Tick (Ret true) (Ret (encode (lit "MIC_TOGGLE") ++ [x0a]))
                  (fun _ => Ret (lit "missing value" ++ [LF]))
                  (Ret (lit "Finder" ++ [LF])) (Ret tt) (Ret tt)]
            (Ret tt) (Ret tt) in
  let no_osascript :=
    Attempt [lit "/dev/cu.usbmodem1"] port_open
            [Tick (Ret false) (Ret []) (fun _ => Ret []) (Exc OSError)
                  (Ret tt) (Ret tt)]
            (Ret tt) (Ret tt) in
  let r1 := main [lit "macropad_appname.py"]
                 [not_found; end_of_file; unparsable_volume; not_found]
                 initial_saved_input_volume in
  let r2 := main [lit "macropad_appname.py"]
                 [not_found; end_of_file; no_osascript; not_found]
                 initial_saved_input_volume in
  (value r1 = Raised ValueError
   /\ interrupted (trace r1) = false
   /\ cooldowns (trace r1) = 2%nat
   /\ locatings (trace r1) = 3%nat)
  /\ (value r2 = Raised OSError
      /\ interrupted (trace r2) = false
      /\ cooldowns (trace r2) = 2%nat
      /\ locatings (trace r2) = 3%nat).
Proof. vm_compute. repeat split. Qed.

(* ================================================================== *)
(** * Further properties: looking for the port                         *)
(* ================================================================== *)

Lemma str_leb_refl : forall a, str_leb a a = true.
Proof.
  induction a as [|x a IH]; [reflexivity|].
  simpl. rewrite N.ltb_irrefl. exact IH.
Qed.

Lemma str_leb_total : forall a b, str_leb a b = false -> str_leb b a = true.
Proof.
  induction a as [|x a IH]; destruct b as [|y b]; simpl; try congruence.
  destruct (N.ltb_spec x y); [discriminate|].
  destruct (N.ltb_spec y x); [reflexivity|]. apply IH.
Qed.

Lemma str_leb_trans :
  forall a b c, str_leb a b = true -> str_leb b c = true -> str_leb a c = true.
Proof.
  induction a as [|x a IH]; intros b c; [reflexivity|].
  destruct b as [|y b]; [discriminate|]. destruct c as [|z c]; [discriminate|].
  simpl.
  destruct (N.ltb_spec x y), (N.ltb_spec y x), (N.ltb_spec y z),
    (N.ltb_spec z y), (N.ltb_spec x z), (N.ltb_spec z x);
    try lia; try discriminate; try reflexivity.
  apply IH.
Qed.

Lemma insert_sorted_In :
  forall x l y, In y (insert_sorted x l) <-> y = x \/ In y l.
Proof.
  intros x l y. induction l as [|z l IH]; simpl.
  - intuition congruence.
  - destruct (str_leb x z); simpl; [intuition congruence|].
    rewrite IH. intuition congruence.
Qed.

Lemma sorted_In : forall l y, In y (sorted l) <-> In y l.
Proof.
  intros l y. induction l as [|x l IH]; simpl; [reflexivity|].
  rewrite insert_sorted_In, IH. intuition congruence.
Qed.

Lemma insert_sorted_least :
  forall x l,
    least_first l -> least_first (insert_sorted x l).
Proof.
  intros x l H. unfold least_first in *. destruct l as [|z l]; simpl.
  - intros q [<-|[]]. apply str_leb_refl.
  - destruct (str_leb x z) eqn:E.
    + intros q [<-|Hq]; [apply str_leb_refl|].
      apply str_leb_trans with z; [exact E | apply H; exact Hq].
    + intros q Hq. simpl in Hq. destruct Hq as [<-|Hq].
      * apply str_leb_refl.
      * apply insert_sorted_In in Hq. destruct Hq as [->|Hq].
        -- apply str_leb_total. exact E.
        -- apply H. right. exact Hq.
Qed.

Lemma sorted_least : forall l, least_first (sorted l).
Proof.
  induction l as [|x l IH]; simpl.
  - exact I.
  - apply insert_sorted_least. exact IH.
Qed.

(** X1. Without a port on the command line, [find_port] asks [glob] once and
    returns [None] exactly when nothing was found; otherwise it returns one of
    the paths found, and none of the paths found comes before it in the order
    of [sorted]. *)
Theorem find_port_picks_the_least_path :
  forall (argv found : list str) (s : option Z),
    nth_error argv 1 = None ->
    trace (find_port argv found s) = [EvGlob (lit "/dev/cu.usbmodem*") found]
    /\ saved_input_volume (find_port argv found s) = s
    /\ match value (find_port argv found s) with
       | Done None => found = []
       | Done (Some port) =>
           In port found /\ forall q, In q found -> str_leb port q = true
       | _ => False
       end.
Proof.
  intros argv found s Hargv. unfold find_port. rewrite Hargv. run_it.
  pose proof (sorted_In found) as HIn. pose proof (sorted_least found) as Hl.
  destruct (sorted found) as [|first rest]; cbn [trace value saved_input_volume].
  - repeat split. destruct found as [|x l]; [reflexivity|].
    destruct (proj2 (HIn x) (or_introl eq_refl)).
  - repeat split.
    + apply HIn. left. reflexivity.
    + intros q Hq. apply Hl. apply HIn. exact Hq.
Qed.

Lemma find_port_witness :
  In (lit "/dev/cu.usbmodem11")
     [lit "/dev/cu.usbmodem2"; lit "/dev/cu.usbmodem11"]
  /\ forall q,
      In q [lit "/dev/cu.usbmodem2"; lit "/dev/cu.usbmodem11"] ->
      str_leb (lit "/dev/cu.usbmodem11") q = true.
Proof.
  exact (proj2 (proj2 (@find_port_picks_the_least_path
                         [lit "macropad_appname.py"]
                         [lit "/dev/cu.usbmodem2"; lit "/dev/cu.usbmodem11"]
                         None eq_refl))).
Defined.

(* ================================================================== *)
(** * Further properties: opening the port                             *)
(* ================================================================== *)

Lemma ends_with_one : forall (e : event), exists pre, [e] = pre ++ [e].
Proof. intros e. exists []. reflexivity. Qed.

Lemma ends_with_cons :
  forall (e x : event) tr,
    (exists pre, tr = pre ++ [e]) -> exists pre, x :: tr = pre ++ [e].
Proof. intros e x tr [pre ->]. exists (x :: pre). reflexivity. Qed.

Lemma ends_with_app :
  forall (e : event) a b,
    (exists pre, b = pre ++ [e]) -> exists pre, a ++ b = pre ++ [e].
Proof. intros e a b [pre ->]. exists (a ++ pre). apply app_assoc. Qed.

(** Finds the given call at the end of a trace built by sequencing. *)
Ltac ends_with :=
  repeat first [ apply ends_with_one | apply ends_with_cons
               | apply ends_with_app ].

(** X2. [open_port] never lets an [OSError] out: whenever it ends, it is not
    with an [OSError] in flight; and when it returns [None], the last thing it
    did was to print the failure line. *)
Theorem open_port_contains_OSError :
  forall (port : str) (env : open_env) (s : option Z),
    value (open_port port env s) <> Raised OSError
    /\ (value (open_port port env s) = Done None ->
        exists pre,
          trace (open_port port env s) = pre ++ [EvPrint (MsgOpenFailed port)]).
Proof.
  intros port env s. unfold open_port, try_except, bind.
  unfold os_system, os_open, fcntl_getfl, fcntl_setfl, call, print, emit, ret.
  destruct (o_stty env) as [status|e1].
  2:{ destruct e1; cbn [exn_eqb trace value app];
        (split; [discriminate|]); try discriminate.
      intros _. ends_with. }
  destruct (o_open env) as [fd|e2].
  2:{ destruct e2; cbn [exn_eqb trace value app];
        (split; [discriminate|]); try discriminate.
      intros _. ends_with. }
  destruct (flush_startup fd (o_flush env) (o_idle env) s) as [tf sf [[]|e3|]].
  2:{ destruct e3; cbn [exn_eqb trace value app];
        (split; [discriminate|]); try discriminate.
      intros _. ends_with. }
  2:{ cbn [exn_eqb trace value app]. split; discriminate. }
  destruct (o_getfl env) as [flags|e4].
  2:{ destruct e4; cbn [exn_eqb trace value app];
        (split; [discriminate|]); try discriminate.
      intros _. ends_with. }
  destruct (o_setfl env) as [[]|e5]; cbn [exn_eqb trace value app];
    [split; discriminate|].
  destruct e5; cbn [exn_eqb trace value app];
    (split; [discriminate|]); try discriminate.
  intros _. ends_with.
Qed.

Lemma clear_bit_off :
  forall flags m, Z.land (Z.land flags (Z.lnot m)) m = 0%Z.
Proof.
  intros flags m. rewrite <- Z.land_assoc, (Z.land_comm (Z.lnot m) m).
  rewrite Z.land_lnot_diag. apply Z.land_0_r.
Qed.

Lemma clear_bit_rest :
  forall flags m,
    Z.lor (Z.land flags (Z.lnot m)) (Z.land flags m) = flags.
Proof.
  intros flags m. apply Z.bits_inj'. intros n Hn.
  rewrite Z.lor_spec, !Z.land_spec, Z.lnot_spec by exact Hn.
  destruct (Z.testbit flags n), (Z.testbit m n); reflexivity.
Qed.

(** X3. When [open_port] returns a descriptor, it is the one [os.open] gave,
    and the last two calls read its status flags and set them back with
    [O_NONBLOCK] cleared and every other flag as it was: the descriptor handed
    to the session blocks. *)
Theorem open_port_returns_blocking_descriptor :
  forall (port : str) (env : open_env) (s : option Z) (fd : Z),
    value (open_port port env s) = Done (Some fd) ->
    o_open env = Ret fd
    /\ exists flags,
        o_getfl env = Ret flags
        /\ (exists pre,
              trace (open_port port env s) =
              pre ++ [EvGetfl fd (Ret flags);
                      EvSetfl fd (Z.land flags (Z.lnot O_NONBLOCK)) (Ret tt)])
        /\ Z.land (Z.land flags (Z.lnot O_NONBLOCK)) O_NONBLOCK = 0%Z
        /\ Z.lor (Z.land flags (Z.lnot O_NONBLOCK)) (Z.land flags O_NONBLOCK)
           = flags.
Proof.
  intros port env s fd. unfold open_port, try_except, bind.
  unfold os_system, os_open, fcntl_getfl, fcntl_setfl, call, print, emit, ret.
  destruct (o_stty env) as [status|e1];
    [|destruct e1; cbn [exn_eqb trace value app]; discriminate].
  destruct (o_open env) as [fd0|e2];
    [|destruct e2; cbn [exn_eqb trace value app]; discriminate].
  destruct (flush_startup fd0 (o_flush env) (o_idle env) s)
    as [tf sf [[]|e3|]];
    [|destruct e3; cbn [exn_eqb trace value app]; discriminate
     |cbn [exn_eqb trace value app]; discriminate].
  destruct (o_getfl env) as [flags|e4];
    [|destruct e4; cbn [exn_eqb trace value app]; discriminate].
  destruct (o_setfl env) as [[]|e5];
    [|destruct e5; cbn [exn_eqb trace value app]; discriminate].
  cbn [exn_eqb trace value app]. intros H. injection H as ->.
  split; [reflexivity|]. exists flags. split; [reflexivity|].
  split; [|split; [apply clear_bit_off | apply clear_bit_rest]].
  exists ([EvSystem (lit "stty -f '" ++ port ++ lit "' 115200 raw -echo")
                    (Ret status);
           EvOpen port (Z.lor O_RDWR O_NONBLOCK) (Ret fd)] ++ tf).
  rewrite <- !app_assoc. reflexivity.
Qed.

Lemma open_port_blocking_witness :
  o_open (Open (Ret 0%Z) (Ret 3%Z) [Ret [x1b; x5d]] (Ret tt) (Ret 6%Z) (Ret tt))
  = Ret 3%Z.
Proof.
  exact (proj1 (@open_port_returns_blocking_descriptor
                  (lit "/dev/cu.usbmodem1")
                  (Open (Ret 0%Z) (Ret 3%Z) [Ret [x1b; x5d]] (Ret tt)
                        (Ret 6%Z) (Ret tt))
                  None 3%Z eq_refl)).
Defined.

Lemma open_events_close_nothing :
  forall fd tr, Forall open_event tr -> closes fd tr = 0%nat.
Proof.
  intros fd tr H. induction H as [|e tr He _ IH]; [reflexivity|].
  unfold closes in *. simpl. destruct e; try exact IH; contradiction.
Qed.

(** X4. [open_port] never calls [os.close].  So when [os.open] has given a
    descriptor and a later call of [open_port] raises [OSError] (here the
    reading of the status flags), [open_port] returns [None] and the
    descriptor stays open. *)
Theorem open_port_never_closes :
  forall (port : str) (env : open_env) (s : option Z) (fd status : Z),
    o_stty env = Ret status ->
    o_open env = Ret fd ->
    o_getfl env = Exc OSError ->
    value (flush_startup fd (o_flush env) (o_idle env) s) = Done tt ->
    value (open_port port env s) = Done None
    /\ In (EvOpen port (Z.lor O_RDWR O_NONBLOCK) (Ret fd))
          (trace (open_port port env s))
    /\ forall fd', closes fd' (trace (open_port port env s)) = 0%nat.
Proof.
  intros port env s fd status Hstty Hopen Hget Hflush.
  split; [|split].
  - unfold open_port, try_except, bind.
    unfold os_system, os_open, fcntl_getfl, fcntl_setfl, call, print, emit, ret.
    rewrite Hstty, Hopen, Hget.
    destruct (flush_startup fd (o_flush env) (o_idle env) s) as [tf sf vf].
    simpl in Hflush. subst vf. reflexivity.
  - unfold open_port, try_except, bind.
    unfold os_system, os_open, fcntl_getfl, fcntl_setfl, call, print, emit, ret.
    rewrite Hstty, Hopen, Hget.
    destruct (flush_startup fd (o_flush env) (o_idle env) s) as [tf sf vf].
    simpl in Hflush. subst vf. cbn [exn_eqb trace app].
    right. left. reflexivity.
  - intros fd'. apply open_events_close_nothing. apply emits_open_port.
Qed.

Lemma open_port_never_closes_witness :
  value (open_port (lit "/dev/cu.usbmodem1")
                   (Open (Ret 0%Z) (Ret 3%Z) [Ret [x1b]] (Ret tt)
                         (Exc OSError) (Ret tt))
                   None) = Done None.
Proof.
  exact (proj1 (@open_port_never_closes
                  (lit "/dev/cu.usbmodem1")
                  (Open (Ret 0%Z) (Ret 3%Z) [Ret [x1b]] (Ret tt)
                        (Exc OSError) (Ret tt))
                  None 3%Z 0%Z eq_refl eq_refl eq_refl eq_refl)).
Defined.

(* ================================================================== *)
(** * Further properties: the toggle and the lines received            *)
(* ================================================================== *)

(** X5. [toggle_mic] returns only in two ways: the microphone was unmuted,
    the script answered text that [int()] reads as some [v], and
    [saved_input_volume] is now [v]; or a volume was saved, and
    [saved_input_volume] is now [None].  In both the variant has changed. *)
Theorem toggle_mic_returns_flipped :
  forall (osa : outcome str) (s : option Z),
    value (toggle_mic osa s) = Done tt ->
    (s = None
     /\ exists stdout v,
         osa = Ret stdout /\ py_int (strip stdout) = Some v
         /\ saved_input_volume (toggle_mic osa s) = Some v)
    \/ (exists v, s = Some v /\ saved_input_volume (toggle_mic osa s) = None).
Proof.
  intros osa s. destruct s as [v|].
  - intros _. right. exists v. split; [reflexivity|].
    destruct osa; reflexivity.
  - destruct osa as [stdout|e]; [|discriminate].
    run_it. destruct (py_int (strip stdout)) as [v|] eqn:E;
      cbn [trace saved_input_volume value app]; [|discriminate].
    intros _. left. split; [reflexivity|]. exists stdout, v.
    repeat split. exact E.
Qed.

Lemma toggle_mic_returns_witness :
  exists v,
    saved_input_volume (toggle_mic (Ret (lit " 37" ++ [LF])) None) = Some v.
Proof.
  destruct (@toggle_mic_returns_flipped (Ret (lit " 37" ++ [LF])) None eq_refl)
    as [[_ (stdout & v & _ & _ & H)] | (v & E & _)].
  - exists v. exact H.
  - discriminate E.
Defined.

(** X6. The [try] block around [os.read] also covers the dispatch.  When the
    first complete line of a read is [MIC_TOGGLE] and [osascript] cannot be
    started ([OSError]), the iteration prints the read-error line and
    [run_session] returns as for a lost device; whichever variant the
    microphone was in, [saved_input_volume] is [None] afterwards. *)
Theorem osascript_failure_ends_session_as_read_error :
  forall (fd : Z) (t : tick_env) (read_buf : bytes) (c : byte)
         (chunk line : bytes) (more : list bytes) (tail : bytes)
         (s : option Z),
    t_select t = Ret true ->
    t_read t = Ret (c :: chunk) ->
    split_lines (read_buf ++ c :: chunk) = (line :: more, tail) ->
    strip (decode line) = lit "MIC_TOGGLE" ->
    t_osa t 0%nat = Exc OSError ->
    value (read_phase fd t read_buf s) = Done (Return ReadError)
    /\ saved_input_volume (read_phase fd t read_buf s) = None
    /\ exists pre,
        trace (read_phase fd t read_buf s) = pre ++ [EvPrint MsgReadError].
Proof.
  intros fd t read_buf c chunk line more tail s Hsel Hrd Hsplit Hcmd Hosa.
  unfold read_phase. rewrite Hsel, Hrd.
  cbv [select os_read call bind try_except]. rewrite Hsplit.
  cbn [dispatch_lines]. rewrite Hcmd, Hosa.
  change (truthy (lit "MIC_TOGGLE")) with true. cbv iota.
  rewrite handle_MIC_TOGGLE.
  destruct s as [v|]; run_it; repeat split; ends_with.
Qed.

Lemma osascript_failure_witness :
  value (read_phase 3
           (Tick (Ret true) (Ret (encode (lit "MIC_TOGGLE") ++ [x0a]))
                 (fun _ => Exc OSError) (Ret []) (Ret tt) (Ret tt))
           [] (Some 42%Z)) = Done (Return ReadError).
Proof.
  exact (proj1 (@osascript_failure_ends_session_as_read_error
                  3%Z
                  (Tick (Ret true) (Ret (encode (lit "MIC_TOGGLE") ++ [x0a]))
                        (fun _ => Exc OSError) (Ret []) (Ret tt) (Ret tt))
                  [] x4d [x49; x43; x5f; x54; x4f; x47; x47; x4c; x45; x0a]
                  (encode (lit "MIC_TOGGLE")) [] [] (Some 42%Z)
                  eq_refl eq_refl eq_refl eq_refl eq_refl)).
Defined.

Lemma decode_ascii :
  forall bs,
    Forall (fun b => Byte.to_N b < 0x80) bs -> decode bs = map Byte.to_N bs.
Proof.
  intros bs H. induction H as [|b r Hb _ IH]; [reflexivity|].
  apply N.ltb_lt in Hb.
  cbn [decode map]. cbv zeta. rewrite Hb, IH. reflexivity.
Qed.

Lemma lstrip_spaces :
  forall w s, Forall (fun c => isspace c = true) w -> lstrip (w ++ s) = lstrip s.
Proof.
  intros w s H. induction H as [|c w Hc _ IH]; [reflexivity|].
  simpl. rewrite Hc. exact IH.
Qed.

Lemma lstrip_all_spaces :
  forall w, Forall (fun c => isspace c = true) w -> lstrip w = [].
Proof.
  intros w H. induction H as [|c w Hc _ IH]; [reflexivity|].
  simpl. rewrite Hc. exact IH.
Qed.

Lemma strip_between_spaces :
  forall w1 s w2,
    Forall (fun c => isspace c = true) w1 ->
    Forall (fun c => isspace c = true) w2 ->
    spaceless s ->
    strip (w1 ++ s ++ w2) = s.
Proof.
  intros w1 s w2 H1 H2 Hs. unfold strip, rstrip.
  rewrite !rev_app_distr, <- app_assoc.
  rewrite lstrip_spaces by (apply Forall_rev; exact H2).
  destruct (rev s) as [|x r] eqn:E.
  - assert (s = []) as -> by (rewrite <- (rev_involutive s), E; reflexivity).
    simpl. rewrite (lstrip_all_spaces (Forall_rev H1)). reflexivity.
  - assert (Hx : isspace x = false).
    { apply Forall_rev in Hs. rewrite E in Hs. inversion Hs. assumption. }
    cbn [app lstrip]. rewrite Hx.
    change (x :: r ++ rev w1) with ((x :: r) ++ rev w1).
    rewrite <- E, rev_app_distr, !rev_involutive.
    rewrite lstrip_spaces by exact H1. apply lstrip_spaceless. exact Hs.
Qed.

(** X7. Whitespace around a command does not matter: a received line made of
    ASCII whitespace (a carriage return before the line feed, blanks, tabs),
    the bytes of [MIC_TOGGLE], and ASCII whitespace again is dispatched to
    [toggle_mic] like the bare command. *)
Theorem padded_MIC_TOGGLE_is_dispatched :
  forall (w1 w2 : bytes) (osa : nat -> outcome str) (k : nat) (s : option Z),
    Forall (fun b => Byte.to_N b < 0x80 /\ isspace (Byte.to_N b) = true) w1 ->
    Forall (fun b => Byte.to_N b < 0x80 /\ isspace (Byte.to_N b) = true) w2 ->
    strip (decode (w1 ++ encode (lit "MIC_TOGGLE") ++ w2)) = lit "MIC_TOGGLE"
    /\ dispatch_lines osa k [w1 ++ encode (lit "MIC_TOGGLE") ++ w2] s =
       toggle_mic (osa k) s.
Proof.
  intros w1 w2 osa k s H1 H2.
  assert (E : strip (decode (w1 ++ encode (lit "MIC_TOGGLE") ++ w2))
              = lit "MIC_TOGGLE").
  { rewrite decode_ascii.
    - rewrite !map_app. apply strip_between_spaces.
      + apply Forall_map. eapply Forall_impl; [|exact H1]. intros b [_ H]. exact H.
      + apply Forall_map. eapply Forall_impl; [|exact H2]. intros b [_ H]. exact H.
      + repeat constructor.
    - apply Forall_app. split.
      + eapply Forall_impl; [|exact H1]. intros b [H _]. exact H.
      + apply Forall_app. split.
        * repeat constructor.
        * eapply Forall_impl; [|exact H2]. intros b [H _]. exact H. }
  split; [exact E|].
  cbn [dispatch_lines]. rewrite E.
  change (truthy (lit "MIC_TOGGLE")) with true. cbv iota.
  rewrite handle_MIC_TOGGLE. unfold bind, ret.
  destruct (toggle_mic (osa k) s) as [t1 s1 [[]| |]]; rewrite ?app_nil_r;
    reflexivity.
Qed.

Lemma padded_MIC_TOGGLE_witness :
  dispatch_lines (fun _ => Ret (lit "55")) 0
                 [[x20] ++ encode (lit "MIC_TOGGLE") ++ [x0d]] None =
  toggle_mic (Ret (lit "55")) None.
Proof.
  refine (proj2 (@padded_MIC_TOGGLE_is_dispatched
                   [x20] [x0d] (fun _ => Ret (lit "55")) 0%nat None _ _)).
  - repeat constructor.
  - repeat constructor.
Defined.

(* ================================================================== *)
(** * Further properties: the read buffer                              *)
(* ================================================================== *)

(** X8. The loop that takes lines off the buffer loses and invents no byte:
    the lines, each followed by the line feed that ended it, and then what is
    left in the buffer, are the buffer as it was; no line holds a line feed,
    and neither does what is left. *)
Theorem split_lines_loses_nothing :
  forall buf : bytes,
    flat_map (fun line => line ++ [LF_byte]) (fst (split_lines buf))
      ++ snd (split_lines buf) = buf
    /\ Forall (fun line => ~ In LF_byte line) (fst (split_lines buf))
    /\ ~ In LF_byte (snd (split_lines buf)).
Proof.
  induction buf as [|b r (IHj & IHl & IHt)]; simpl.
  - repeat split; [constructor | intros []].
  - destruct (split_lines r) as [lines tail]. simpl in *.
    destruct (Byte.eqb b LF_byte) eqn:Hb.
    + apply Byte.byte_dec_bl in Hb. subst b. simpl.
      repeat split; [f_equal; exact IHj | | exact IHt].
      constructor; [intros [] | exact IHl].
    + assert (Hne : b <> LF_byte).
      { intros ->. discriminate Hb. }
      destruct lines as [|l ls]; simpl in *.
      * repeat split; [f_equal; exact IHj | constructor |].
        intros [E|H]; [congruence | exact (IHt H)].
      * repeat split; [f_equal; exact IHj | | exact IHt].
        inversion IHl as [|? ? Hl Hls]; subst. constructor; [|exact Hls].
        intros [E|H]; [congruence | exact (Hl H)].
Qed.

Lemma split_lines_no_LF :
  forall buf, ~ In LF_byte buf -> split_lines buf = ([], buf).
Proof.
  induction buf as [|b r IH]; intros H; [reflexivity|].
  simpl. rewrite IH by (intros Hr; apply H; right; exact Hr).
  destruct (Byte.eqb b LF_byte) eqn:Hb; [|reflexivity].
  apply Byte.byte_dec_bl in Hb. exfalso. apply H. left. exact Hb.
Qed.

(** X9. Bytes that do not complete a line are kept and nothing is dispatched:
    when neither the buffer nor the bytes read hold a line feed, the first half
    of the iteration makes the [select] and the [os.read] only, and the buffer
    becomes the old buffer followed by the bytes read. *)
Theorem partial_line_is_kept :
  forall (fd : Z) (t : tick_env) (read_buf : bytes) (c : byte) (chunk : bytes)
         (s : option Z),
    t_select t = Ret true ->
    t_read t = Ret (c :: chunk) ->
    ~ In LF_byte read_buf ->
    ~ In LF_byte (c :: chunk) ->
    read_phase fd t read_buf s =
    Run [EvSelect fd 0 (Ret true); EvRead fd 256 (Ret (c :: chunk))]
        s (Done (Next (read_buf ++ c :: chunk))).
Proof.
  intros fd t read_buf c chunk s Hsel Hrd Hbuf Hchunk.
  unfold read_phase. rewrite Hsel, Hrd.
  cbv [select os_read call bind try_except].
  rewrite split_lines_no_LF.
  - reflexivity.
  - intros H. apply in_app_or in H. destruct H; contradiction.
Qed.

Lemma partial_line_witness :
  read_phase 3 (Tick (Ret true) (Ret [x47; x47]) (fun _ => Ret []) (Ret [])
                     (Ret tt) (Ret tt))
             [x4d; x49] None =
  Run [EvSelect 3 0 (Ret true); EvRead 3 256 (Ret [x47; x47])]
      None (Done (Next [x4d; x49; x47; x47])).
Proof.
  refine (@partial_line_is_kept 3%Z
            (Tick (Ret true) (Ret [x47; x47]) (fun _ => Ret []) (Ret [])
                  (Ret tt) (Ret tt))
            [x4d; x49] x47 [x47] None eq_refl eq_refl _ _).
  - intros [H|[H|[]]]; discriminate H.
  - intros [H|[H|[]]]; discriminate H.
Defined.

Lemma bind_assoc :
  forall A B C (m : M A) (f : A -> M B) (g : B -> M C) s,
    bind (bind m f) g s = bind m (fun a => bind (f a) g) s.
Proof.
  intros A B C m f g s. unfold bind.
  destruct (m s) as [t1 s1 [a| |]]; try reflexivity.
  destruct (f a s1) as [t2 s2 [b| |]]; try reflexivity.
  destruct (g b s2) as [t3 s3 v3]. rewrite app_assoc. reflexivity.
Qed.

Lemma bind_ext :
  forall A B (m : M A) (f g : A -> M B) s,
    (forall a s', f a s' = g a s') -> bind m f s = bind m g s.
Proof.
  intros A B m f g s H. unfold bind.
  destruct (m s) as [t1 s1 [a| |]]; try reflexivity.
  rewrite H. reflexivity.
Qed.

(** X10. The lines of one read are dispatched in order, and an exception
    raised for one of them leaves the following ones undispatched:
    dispatching [lines1 ++ lines2] is dispatching [lines1] and, if that
    returns, dispatching [lines2], the scripts started for [lines2] being
    those numbered after the ones of [lines1]. *)
Theorem dispatch_lines_in_order :
  forall (osa : nat -> outcome str) (lines1 lines2 : list bytes) (k : nat)
         (s : option Z),
    dispatch_lines osa k (lines1 ++ lines2) s =
    (dispatch_lines osa k lines1 ;;
     dispatch_lines osa (k + List.length lines1) lines2) s.
Proof.
  intros osa lines1 lines2. induction lines1 as [|line rest IH]; intros k s.
  - simpl. rewrite Nat.add_0_r. unfold bind, ret.
    destruct (dispatch_lines osa k lines2 s). reflexivity.
  - cbn [dispatch_lines app List.length]. rewrite bind_assoc.
    apply bind_ext. intros _ s'. rewrite IH.
    rewrite Nat.add_succ_r. reflexivity.
Qed.

(** X20. Only [MIC_TOGGLE] starts anything: the dispatch of any number of
    lines none of which strips to [MIC_TOGGLE] returns, leaves
    [saved_input_volume] as it was, and makes no call but the printing of the
    [Unknown command] lines. *)
Theorem lines_without_MIC_TOGGLE_only_print :
  forall (osa : nat -> outcome str) (lines : list bytes) (k : nat)
         (s : option Z),
    Forall (fun line =>
              str_eqb (strip (decode line)) (lit "MIC_TOGGLE") = false) lines ->
    value (dispatch_lines osa k lines s) = Done tt
    /\ saved_input_volume (dispatch_lines osa k lines s) = s
    /\ trace (dispatch_lines osa k lines s) =
       map (fun line => EvPrint (MsgUnknown (strip (decode line))))
           (filter (fun line => truthy (strip (decode line))) lines).
Proof.
  intros osa lines k s H. revert k.
  induction H as [|line rest Hline _ IH]; intros k; [repeat split|].
  cbn [dispatch_lines filter]. unfold bind.
  destruct (IH (S k)) as (Hv & Hs & Ht).
  destruct (truthy (strip (decode line))).
  - rewrite dispatch_unknown by exact Hline.
    destruct (dispatch_lines osa (S k) rest s) as [t2 s2 v2].
    cbn [trace value saved_input_volume app map] in *.
    repeat split; congruence.
  - unfold ret.
    destruct (dispatch_lines osa (S k) rest s) as [t2 s2 v2].
    cbn [trace value saved_input_volume app] in *.
    repeat split; assumption.
Qed.

Lemma lines_without_MIC_TOGGLE_witness :
  trace (dispatch_lines (fun _ => Ret []) 0
           [encode (lit "mic_toggle"); [x0d]; encode (lit "PING")] None) =
  [EvPrint (MsgUnknown (lit "mic_toggle")); EvPrint (MsgUnknown (lit "PING"))].
Proof.
  refine (proj2 (proj2 (@lines_without_MIC_TOGGLE_only_print
                          (fun _ => Ret [])
                          [encode (lit "mic_toggle"); [x0d];
                           encode (lit "PING")] 0%nat None _))).
  repeat constructor.
Defined.

(* ================================================================== *)
(** * Further properties: the session                                  *)
(* ================================================================== *)

(** X11. A session does its input and output on the descriptor it was given
    and on nothing else: every call of [run_session] is a [select] with
    timeout 0, an [os.read] of 256 bytes or an [os.write] on [fd], the start
    of one of the three scripts, a [print], or a [sleep] of one second.  In
    particular it never closes, opens or reconfigures a descriptor. *)
Theorem run_session_uses_only_its_descriptor :
  forall (fd : Z) (ticks : list tick_env) (s : option Z),
    Forall (session_event fd) (trace (run_session fd ticks s))
    /\ forall fd', closes fd' (trace (run_session fd ticks s)) = 0%nat.
Proof.
  intros fd ticks s. pose proof (emits_run_session fd ticks s) as H.
  split; [exact H|]. intros fd'.
  induction H as [|e tr He _ IH]; [reflexivity|].
  unfold closes in *. simpl. destruct e; try exact IH; contradiction.
Qed.

(** X12. When [os.read] raises [OSError], the iteration prints the read-error
    line and [run_session] returns at once, whatever its locals: the
    application name is not queried and nothing is written. *)
Theorem read_error_ends_session :
  forall (fd : Z) (t : tick_env) (rest : list tick_env)
         (last_app : str) (read_buf : bytes) (s : option Z),
    t_select t = Ret true -> t_read t = Exc OSError ->
    session_loop fd last_app read_buf (t :: rest) s =
    Run [EvSelect fd 0 (Ret true); EvRead fd 256 (Exc OSError);
         EvPrint MsgReadError]
        s (Done ReadError).
Proof.
  intros fd t rest last_app read_buf s Hsel Hrd.
  rewrite session_loop_cons. unfold read_phase. rewrite Hsel, Hrd.
  reflexivity.
Qed.

Lemma read_error_witness :
  session_loop 3 (lit "Finder") [] 
    [Tick (Ret true) (Exc OSError) (fun _ => Ret []) (Ret (lit "Safari"))
          (Ret tt) (Ret tt)] None =
  Run [EvSelect 3 0 (Ret true); EvRead 3 256 (Exc OSError);
       EvPrint MsgReadError]
      None (Done ReadError).
Proof.
  exact (@read_error_ends_session 3%Z
           (Tick (Ret true) (Exc OSError) (fun _ => Ret [])
                 (Ret (lit "Safari")) (Ret tt) (Ret tt))
           [] (lit "Finder") [] None eq_refl eq_refl).
Defined.

(** X13. When the name obtained is new and [os.write] raises [OSError], the
    iteration prints the write-error line and [run_session] returns at once:
    no [Sent] line, no sleep, no further iteration. *)
Theorem write_error_ends_session :
  forall (fd : Z) (t : tick_env) (rest : list tick_env)
         (last_app : str) (read_buf : bytes) (stdout : str) (s : option Z),
    t_select t = Ret false ->
    t_front t = Ret stdout ->
    strip stdout <> [] -> strip stdout <> last_app ->
    t_write t = Exc OSError ->
    session_loop fd last_app read_buf (t :: rest) s =
    Run [EvSelect fd 0 (Ret false); EvRun FrontmostApp (Ret stdout);
         EvWrite fd (payload (strip stdout)) (Exc OSError);
         EvPrint MsgWriteError]
        s (Done WriteError).
Proof.
  intros fd t rest last_app read_buf stdout s Hsel Hfront Hne Hnew Hwr.
  rewrite session_loop_cons. unfold read_phase, after_read, send_phase.
  rewrite Hsel, Hfront, Hwr. run_it.
  assert (T : truthy (strip stdout) = true).
  { destruct (strip stdout); [contradiction | reflexivity]. }
  apply str_eqb_neq in Hnew. rewrite T, Hnew, encode_line. reflexivity.
Qed.

Lemma write_error_witness :
  session_loop 3 (lit "Finder") []
    [Tick (Ret false) (Ret []) (fun _ => Ret []) (Ret (lit "Safari" ++ [LF]))
          (Exc OSError) (Ret tt)] None =
  Run [EvSelect 3 0 (Ret false);
       EvRun FrontmostApp (Ret (lit "Safari" ++ [LF]));
       EvWrite 3 (payload (strip (lit "Safari" ++ [LF]))) (Exc OSError);
       EvPrint MsgWriteError]
      None (Done WriteError).
Proof.
  refine (@write_error_ends_session 3%Z
            (Tick (Ret false) (Ret []) (fun _ => Ret [])
                  (Ret (lit "Safari" ++ [LF])) (Exc OSError) (Ret tt))
            [] (lit "Finder") [] (lit "Safari" ++ [LF]) None
            eq_refl eq_refl _ _ eq_refl).
  - discriminate.
  - discriminate.
Defined.

Lemma announced_read_phase :
  forall fd t read_buf s, announced (read_phase fd t read_buf s).
Proof.
  intros fd t read_buf s why. unfold read_phase.
  unfold select, os_read, print, call, emit, ret, try_except, bind.
  destruct (t_select t) as [[]|e]; cbn [trace value app]; try discriminate.
  destruct (t_read t) as [[|c chunk]|e]; cbn [trace value app exn_eqb].
  - intros H. injection H as <-. ends_with.
  - destruct (split_lines (read_buf ++ c :: chunk)) as [lines tail].
    destruct (dispatch_lines (t_osa t) 0 lines s) as [td sd [[]|e|]];
      cbn [trace value app]; try discriminate.
    destruct e; cbn [trace value app exn_eqb]; try discriminate.
    intros H. injection H as <-. ends_with.
  - destruct e; cbn [trace value app exn_eqb]; try discriminate.
    intros H. injection H as <-. ends_with.
Qed.

Lemma announced_send_phase :
  forall fd t last_app s, announced (send_phase fd t last_app s).
Proof.
  intros fd t last_app s why. unfold send_phase.
  unfold subprocess_run, os_write, sleep, print, call, emit, ret, try_except,
    bind.
  destruct (t_front t) as [stdout|e]; cbn [trace value app]; try discriminate.
  destruct (truthy (strip stdout) && negb (str_eqb (strip stdout) last_app)).
  - destruct (t_write t) as [[]|e]; cbn [trace value app exn_eqb].
    + destruct (t_sleep t) as [[]|e]; cbn [trace value app]; discriminate.
    + destruct e; cbn [trace value app exn_eqb]; try discriminate.
      intros H. injection H as <-. ends_with.
  - destruct (t_sleep t) as [[]|e]; cbn [trace value app]; discriminate.
Qed.

Lemma announced_then :
  forall A (m : M (step A)) (k : A -> M DisconnectReason) s,
    announced (m s) ->
    (forall a s', announced_return (k a s')) ->
    announced_return
      ((r <- m ;;
        match r with
        | Return why => ret why
        | Next a => k a
        end) s).
Proof.
  intros A m k s Hm Hk why. unfold bind.
  destruct (m s) as [t1 s1 [[w|a]|e|]]; cbn [trace value] in *;
    try discriminate.
  - unfold ret. cbn [trace value]. intros H. injection H as <-.
    rewrite app_nil_r. apply Hm. reflexivity.
  - specialize (Hk a s1 why). destruct (k a s1) as [t2 s2 v2].
    cbn [trace value] in *. intros H. apply ends_with_app, Hk, H.
Qed.

Lemma announced_session_loop :
  forall fd ticks last_app read_buf s,
    announced_return (session_loop fd last_app read_buf ticks s).
Proof.
  intros fd ticks. induction ticks as [|t rest IH];
    intros last_app read_buf s; [intros why; discriminate|].
  rewrite session_loop_cons.
  apply announced_then; [apply announced_read_phase|].
  intros read_buf' s1. unfold after_read.
  apply announced_then; [apply announced_send_phase|].
  intros last_app' s2. apply IH.
Qed.

(** X14. Every return of [run_session] is announced: when a session returns,
    the last thing it did was to print the line of the [return] statement it
    executed (end of file, read error or write error). *)
Theorem session_return_is_announced :
  forall (fd : Z) (ticks : list tick_env) (s : option Z)
         (why : DisconnectReason),
    value (run_session fd ticks s) = Done why ->
    exists pre,
      trace (run_session fd ticks s) = pre ++ [EvPrint (farewell why)].
Proof.
  intros fd ticks s why. rewrite run_session_is_loop.
  apply announced_session_loop.
Qed.

Lemma session_return_witness :
  exists pre,
    trace (run_session 3
             [Tick (Ret false) (Ret []) (fun _ => Ret [])
                   (Ret (lit "Safari")) (Ret tt) (Ret tt);
              Tick (Ret true) (Ret []) (fun _ => Ret [])
                   (Ret (lit "Safari")) (Ret tt) (Ret tt)] None) =
    pre ++ [EvPrint MsgEof].
Proof.
  exact (@session_return_is_announced 3%Z
           [Tick (Ret false) (Ret []) (fun _ => Ret [])
                 (Ret (lit "Safari")) (Ret tt) (Ret tt);
            Tick (Ret true) (Ret []) (fun _ => Ret [])
                 (Ret (lit "Safari")) (Ret tt) (Ret tt)]
           None Eof eq_refl).
Defined.

(* ================================================================== *)
(** * Further properties: the loop of [main]                           *)
(* ================================================================== *)

Lemma value_bind_Raised :
  forall A B (m : M A) (k : A -> M B) s e,
    value (m s) = Raised e -> value (bind m k s) = Raised e.
Proof.
  intros A B m k s e H. unfold bind.
  destruct (m s) as [t1 s1 v1]. simpl in H. subst v1. reflexivity.
Qed.

Lemma trace_bind_Done :
  forall A B (m : M A) (k : A -> M B) s a,
    value (m s) = Done a ->
    trace (bind m k s) = trace (m s) ++ trace (k a (saved_input_volume (m s))).
Proof.
  intros A B m k s a H. unfold bind.
  destruct (m s) as [t1 s1 v1]. simpl in *. subst v1.
  destruct (k a s1). reflexivity.
Qed.

Lemma trace_bind_Raised :
  forall A B (m : M A) (k : A -> M B) s e,
    value (m s) = Raised e -> trace (bind m k s) = trace (m s).
Proof.
  intros A B m k s e H. unfold bind.
  destruct (m s) as [t1 s1 v1]. simpl in H. subst v1. reflexivity.
Qed.

(** With a port found and opened, what the iteration of [main] does next is
    the [try] statement around the session, started with the value of
    [saved_input_volume] the iteration began with. *)
Lemma main_body_reaches_session :
  forall argv a s port fd,
    value (find_port argv (a_glob a) s) = Done (Some port) ->
    value (open_port port (a_open a) s) = Done (Some fd) ->
    value (main_body argv a s) =
      value ((c <- guarded_session fd a ;;
              match c with
              | Break => ret Break
              | Again why =>
                  print MsgReconnecting ;;
                  sleep RETRY_INTERVAL (a_sleep a) ;;
                  ret (Again why)
              end) s)
    /\ exists pre,
        trace (main_body argv a s) =
        pre ++ trace ((c <- guarded_session fd a ;;
                       match c with
                       | Break => ret Break
                       | Again why =>
                           print MsgReconnecting ;;
                           sleep RETRY_INTERVAL (a_sleep a) ;;
                           ret (Again why)
                       end) s).
Proof.
  intros argv a s port fd Hfind Hopen. unfold main_body. split.
  - rewrite (value_bind_Done _ _ _ Hfind), keeps_find_port.
    rewrite (@value_bind_Done _ _ (emit (EvFindPort (Some port))) _ s tt eq_refl).
    cbn [saved_input_volume emit]. unfold after_find_port, print.
    rewrite (@value_bind_Done _ _ (emit (EvPrint (MsgConnecting port))) _ s tt
               eq_refl).
    cbn [saved_input_volume emit].
    rewrite (value_bind_Done _ _ _ Hopen), keeps_open_port.
    rewrite (@value_bind_Done _ _ (emit (EvPrint (MsgConnected port))) _ s tt
               eq_refl).
    reflexivity.
  - rewrite (trace_bind_Done _ _ _ Hfind), keeps_find_port.
    rewrite (@trace_bind_Done _ _ (emit (EvFindPort (Some port))) _ s tt eq_refl).
    cbn [saved_input_volume emit]. unfold after_find_port, print.
    rewrite (@trace_bind_Done _ _ (emit (EvPrint (MsgConnecting port))) _ s tt
               eq_refl).
    cbn [saved_input_volume emit].
    rewrite (trace_bind_Done _ _ _ Hopen), keeps_open_port.
    rewrite (@trace_bind_Done _ _ (emit (EvPrint (MsgConnected port))) _ s tt
               eq_refl).
    cbn [saved_input_volume emit]. rewrite !app_assoc. eexists. reflexivity.
Qed.

(** X15. The interrupt is handled around the session: when a call of the
    session is cut short by [KeyboardInterrupt], [main] prints [Stopped.],
    closes the descriptor and returns; the rest of the environment is never
    consulted, there is no retry. *)
Theorem interrupt_in_session_stops_main :
  forall (argv : list str) (a : attempt_env) (rest : list attempt_env)
         (s : option Z) (port : str) (fd : Z),
    value (find_port argv (a_glob a) s) = Done (Some port) ->
    value (open_port port (a_open a) s) = Done (Some fd) ->
    value (run_session fd (a_ticks a) s) = Raised KeyboardInterrupt ->
    a_close a = Ret tt ->
    value (main argv (a :: rest) s) = Done tt
    /\ exists pre,
        trace (main argv (a :: rest) s) =
        pre ++ [EvPrint MsgStopped; EvClose fd (Ret tt)].
Proof.
  intros argv a rest s port fd Hfind Hopen Hint Hclose.
  destruct (main_body_reaches_session argv a s Hfind Hopen) as [Hv [pre Ht]].
  assert (G : guarded_session fd a s =
              Run (trace (run_session fd (a_ticks a) s)
                   ++ [EvPrint MsgStopped; EvClose fd (Ret tt)])
                  (saved_input_volume (run_session fd (a_ticks a) s))
                  (Done Break)).
  { unfold guarded_session, try_finally, try_except, bind, os_close, call,
      print, emit, ret. rewrite Hclose.
    destruct (run_session fd (a_ticks a) s) as [t1 s1 v1]. simpl in Hint.
    subst v1. cbn [exn_eqb trace value saved_input_volume app].
    rewrite <- app_assoc. reflexivity. }
  assert (B : value (main_body argv a s) = Done Break).
  { rewrite Hv. unfold bind. rewrite G. reflexivity. }
  rewrite main_cons. split.
  - rewrite (value_bind_Done _ _ _ B). reflexivity.
  - rewrite (trace_bind_Done _ _ _ B). cbn [ret trace]. rewrite app_nil_r, Ht.
    unfold bind. rewrite G. cbn [ret trace]. rewrite app_nil_r.
    exists (pre ++ trace (run_session fd (a_ticks a) s)).
    rewrite app_assoc. reflexivity.
Qed.

Lemma interrupt_in_session_witness :
  value (main [lit "macropad_appname.py"; lit "/dev/cu.usbmodem1"]
              [Attempt [] (Open (Ret 0%Z) (Ret 3%Z) [] (Ret tt) (Ret 6%Z)
                                (Ret tt))
                       [Tick (Ret false) (Ret []) (fun _ => Ret [])
                             (Ret (lit "Finder")) (Ret tt)
                             (Exc KeyboardInterrupt)]
                       (Ret tt) (Ret tt)]
              None) = Done tt.
Proof.
  exact (proj1 (@interrupt_in_session_stops_main
                  [lit "macropad_appname.py"; lit "/dev/cu.usbmodem1"]
                  (Attempt [] (Open (Ret 0%Z) (Ret 3%Z) [] (Ret tt) (Ret 6%Z)
                                    (Ret tt))
                           [Tick (Ret false) (Ret []) (fun _ => Ret [])
                                 (Ret (lit "Finder")) (Ret tt)
                                 (Exc KeyboardInterrupt)]
                           (Ret tt) (Ret tt))
                  [] None (lit "/dev/cu.usbmodem1") 3%Z
                  eq_refl eq_refl eq_refl eq_refl)).
Defined.

(** X16. The wait before a retry is outside the [try] statement: an iteration
    that would go round again, when its wait is cut short by
    [KeyboardInterrupt], ends [main] with the exception in flight, the
    interrupted [sleep] being its last call. *)
Theorem interrupt_in_cooldown_escapes :
  forall (argv : list str) (found : list str) (env : open_env)
         (ticks : list tick_env) (close : outcome unit)
         (rest : list attempt_env) (s : option Z) (why : failure),
    value (main_body argv (Attempt found env ticks close (Ret tt)) s)
      = Done (Again why) ->
    value (main argv
             (Attempt found env ticks close (Exc KeyboardInterrupt) :: rest) s)
      = Raised KeyboardInterrupt
    /\ exists pre,
        trace (main argv
                 (Attempt found env ticks close (Exc KeyboardInterrupt) :: rest)
                 s)
        = pre ++ [EvSleep RETRY_INTERVAL (Exc KeyboardInterrupt)].
Proof.
  intros argv found env ticks close rest s why.
  rewrite main_cons.
  unfold main_body, after_find_port, guarded_session.
  cbn [a_glob a_open a_ticks a_close a_sleep].
  unfold bind, print, emit, sleep, call, ret.
  destruct (find_port argv found s) as [t0 s0 [[port|]| |]];
    cbn [trace value saved_input_volume app]; try discriminate.
  - destruct (open_port port env s0) as [t1 s1 [[fd|]| |]];
      cbn [trace value saved_input_volume app]; try discriminate.
    + destruct (try_finally _ _ s1) as [t2 s2 [[w|]| |]];
        cbn [trace value saved_input_volume app]; try discriminate.
      intros _. split; [reflexivity|]. ends_with.
    + intros _. split; [reflexivity|]. ends_with.
  - intros _. split; [reflexivity|]. ends_with.
Qed.

Lemma interrupt_in_cooldown_witness :
  value (main [lit "macropad_appname.py"]
              [Attempt [] (Open (Ret 0%Z) (Ret 3%Z) [] (Ret tt) (Ret 6%Z)
                                (Ret tt))
                       [] (Ret tt) (Exc KeyboardInterrupt)]
              None) = Raised KeyboardInterrupt.
Proof.
  exact (proj1 (@interrupt_in_cooldown_escapes
                  [lit "macropad_appname.py"] []
                  (Open (Ret 0%Z) (Ret 3%Z) [] (Ret tt) (Ret 6%Z) (Ret tt))
                  [] (Ret tt) [] None NotFound eq_refl)).
Defined.

(** X17. The frontmost-application query is outside every [try] of
    [run_session]: when [osascript] cannot be started for it ([OSError]), the
    exception leaves the session; [main] closes the descriptor and ends with
    the [OSError] in flight, without retry. *)
Theorem app_query_failure_ends_main :
  forall (argv : list str) (a : attempt_env) (rest : list attempt_env)
         (t : tick_env) (more : list tick_env)
         (s : option Z) (port : str) (fd : Z),
    value (find_port argv (a_glob a) s) = Done (Some port) ->
    value (open_port port (a_open a) s) = Done (Some fd) ->
    a_ticks a = t :: more ->
    t_select t = Ret false ->
    t_front t = Exc OSError ->
    a_close a = Ret tt ->
    value (main argv (a :: rest) s) = Raised OSError
    /\ exists pre,
        trace (main argv (a :: rest) s) =
        pre ++ [EvSelect fd 0 (Ret false); EvRun FrontmostApp (Exc OSError);
                EvClose fd (Ret tt)].
Proof.
  intros argv a rest t more s port fd Hfind Hopen Hticks Hsel Hfront Hclose.
  destruct (main_body_reaches_session argv a s Hfind Hopen) as [Hv [pre Ht]].
  assert (G : guarded_session fd a s =
              Run [EvSelect fd 0 (Ret false); EvRun FrontmostApp (Exc OSError);
                   EvClose fd (Ret tt)] s (Raised OSError)).
  { unfold guarded_session. rewrite Hticks, Hclose. unfold run_session.
    rewrite session_loop_cons. unfold read_phase, after_read, send_phase.
    rewrite Hsel, Hfront. reflexivity. }
  assert (B : value (main_body argv a s) = Raised OSError).
  { rewrite Hv. unfold bind. rewrite G. reflexivity. }
  rewrite main_cons. split.
  - apply value_bind_Raised. exact B.
  - rewrite (trace_bind_Raised _ _ _ B), Ht.
    unfold bind. rewrite G. exists pre. reflexivity.
Qed.

Lemma app_query_failure_witness :
  value (main [lit "macropad_appname.py"; lit "/dev/cu.usbmodem1"]
              [Attempt [] (Open (Ret 0%Z) (Ret 3%Z) [] (Ret tt) (Ret 6%Z)
                                (Ret tt))
                       [Tick (Ret false) (Ret []) (fun _ => Ret [])
                             (Exc OSError) (Ret tt) (Ret tt)]
                       (Ret tt) (Ret tt)]
              None) = Raised OSError.
Proof.
  exact (proj1 (@app_query_failure_ends_main
                  [lit "macropad_appname.py"; lit "/dev/cu.usbmodem1"]
                  (Attempt [] (Open (Ret 0%Z) (Ret 3%Z) [] (Ret tt) (Ret 6%Z)
                                    (Ret tt))
                           [Tick (Ret false) (Ret []) (fun _ => Ret [])
                                 (Exc OSError) (Ret tt) (Ret tt)]
                           (Ret tt) (Ret tt))
                  []
                  (Tick (Ret false) (Ret []) (fun _ => Ret [])
                        (Exc OSError) (Ret tt) (Ret tt))
                  [] None (lit "/dev/cu.usbmodem1") 3%Z
                  eq_refl eq_refl eq_refl eq_refl eq_refl eq_refl)).
Defined.

(** X18. An [OSError] of [os.close] is swallowed: with it, the [try] statement
    of [main] ends exactly as it does when [os.close] succeeds, with the same
    result and the same [saved_input_volume]. *)
Theorem close_error_is_swallowed :
  forall (fd : Z) (found : list str) (env : open_env) (ticks : list tick_env)
         (wait : outcome unit) (s : option Z),
    value (guarded_session fd (Attempt found env ticks (Exc OSError) wait) s)
      = value (guarded_session fd (Attempt found env ticks (Ret tt) wait) s)
    /\ saved_input_volume
         (guarded_session fd (Attempt found env ticks (Exc OSError) wait) s)
       = saved_input_volume
           (guarded_session fd (Attempt found env ticks (Ret tt) wait) s).
Proof.
  intros fd found env ticks wait s. unfold guarded_session.
  cbn [a_ticks a_close]. unfold try_finally.
  destruct (try_except KeyboardInterrupt _ _ s) as [t1 s1 [c|e|]];
    split; reflexivity.
Qed.

Lemma main_body_saved_exactly :
  forall argv a s,
    match value (find_port argv (a_glob a) s) with
    | Done (Some port) =>
        match value (open_port port (a_open a) s) with
        | Done (Some fd) =>
            saved_input_volume (main_body argv a s) =
            saved_input_volume (run_session fd (a_ticks a) s)
        | _ => saved_input_volume (main_body argv a s) = s
        end
    | _ => saved_input_volume (main_body argv a s) = s
    end.
Proof.
  intros argv a s. unfold main_body.
  rewrite saved_bind, (keeps_find_port argv (a_glob a) s).
  destruct (value (find_port argv (a_glob a) s)) as [port| |];
    try reflexivity.
  rewrite saved_bind. cbn [emit value saved_input_volume].
  unfold after_find_port. destruct port as [port|];
    [|rewrite saved_bind; apply keeps_cooldown].
  rewrite saved_bind. cbn [print emit value saved_input_volume].
  rewrite saved_bind, (keeps_open_port port (a_open a) s).
  destruct (value (open_port port (a_open a) s)) as [[fd|]| |];
    try reflexivity; [|apply keeps_cooldown].
  rewrite saved_bind. cbn [print emit value saved_input_volume].
  rewrite saved_bind, guarded_session_saved.
  destruct (value (guarded_session fd a s)) as [[why|]| |]; try reflexivity.
  rewrite saved_bind. cbn [print emit value saved_input_volume].
  apply keeps_cooldown.
Qed.

(** X19. Outside [toggle_mic] nothing assigns [saved_input_volume].  Looking
    for the port, opening it and the [try] statement's own calls do not touch
    it; so an iteration of [main] in which a port is found and [open_port]
    returns a descriptor ends with exactly the value its session ended with,
    however the session ended, and every other iteration ends with the value
    it began with. *)
Theorem saved_volume_survives_reconnects :
  forall (argv : list str) (a : attempt_env) (s : option Z),
    (forall found, saved_input_volume (find_port argv found s) = s)
    /\ (forall port, saved_input_volume (open_port port (a_open a) s) = s)
    /\ (forall fd,
          saved_input_volume (guarded_session fd a s) =
          saved_input_volume (run_session fd (a_ticks a) s))
    /\ match value (find_port argv (a_glob a) s) with
       | Done (Some port) =>
           match value (open_port port (a_open a) s) with
           | Done (Some fd) =>
               saved_input_volume (main_body argv a s) =
               saved_input_volume (run_session fd (a_ticks a) s)
           | _ => saved_input_volume (main_body argv a s) = s
           end
       | _ => saved_input_volume (main_body argv a s) = s
       end.
Proof.
  intros argv a s. split; [|split; [|split]].
  - intros found. apply keeps_find_port.
  - intros port. apply keeps_open_port.
  - intros fd. apply guarded_session_saved.
  - apply main_body_saved_exactly.
Qed.
